(** * outbreaker2, src/moves.cpp: the three Metropolis moves

    A shallow embedding of [cpp_move_mu], [cpp_move_t_inf] and
    [cpp_move_alpha], followed by the properties of the moves.

    Conventions of the embedding.
    - A C++ [double] is an extended real with a NaN ([double] below):
      the special values behave as in IEEE 754, finite values are
      exact reals (rounding, overflow and signed zeros are abstracted).
    - Infection times are integer dates, kept as [Z]; the
      [NumericVector] of [cpp_move_t_inf] and the [IntegerVector] of
      [cpp_move_alpha] hold the same integers (overflow is outside
      the model).  In [cpp_move_alpha] a missing date is
      [NA_INTEGER], as in the [IntegerVector] the move reads;
      [cpp_move_t_inf] is modelled for dates that are not missing.
    - Ancestries are the [int]s of an [IntegerVector], with
      [NA_INTEGER] the smallest 32-bit integer.
    - Rcpp's [operator[]] does no bounds check: an access outside a
      vector is undefined behaviour, rendered as [None].
    - R's generator is a global; here its state is passed explicitly.
    - The collaborators declared in likelihoods.h, internals.h and
      Rmath.h are operations of type classes. *)

From Stdlib Require Import Reals Lra ZArith Lia.
From stdpp Require Import base option list.

(** ** Doubles *)

Inductive double : Type :=
  | NaN
  | NegInf
  | PosInf
  | Fin (x : R).

#[global] Instance Rlt_decision (x y : R) : Decision (x < y)%R := Rlt_dec x y.
#[global] Instance Rle_decision (x y : R) : Decision (x <= y)%R := Rle_dec x y.

(** [a - b] *)
Definition d_sub (a b : double) : double :=
  match a, b with
  | NaN, _ | _, NaN => NaN
  | PosInf, PosInf | NegInf, NegInf => NaN
  | PosInf, _ | _, NegInf => PosInf
  | NegInf, _ | _, PosInf => NegInf
  | Fin x, Fin y => Fin (x - y)
  end.

(** [a + b] *)
Definition d_add (a b : double) : double :=
  match a, b with
  | NaN, _ | _, NaN => NaN
  | PosInf, NegInf | NegInf, PosInf => NaN
  | PosInf, _ | _, PosInf => PosInf
  | NegInf, _ | _, NegInf => NegInf
  | Fin x, Fin y => Fin (x + y)
  end.

(** [exp(a)] of math.h *)
Definition d_exp (a : double) : double :=
  match a with
  | NaN => NaN
  | NegInf => Fin 0
  | PosInf => PosInf
  | Fin x => Fin (exp x)
  end.

(** [a < b]: false as soon as one side is NaN *)
Definition d_lt (a b : double) : bool :=
  match a, b with
  | NaN, _ | _, NaN => false
  | _, NegInf => false
  | NegInf, _ => true
  | PosInf, _ => false
  | Fin _, PosInf => true
  | Fin x, Fin y => bool_decide (x < y)%R
  end.

(** [a <= b]: false as soon as one side is NaN *)
Definition d_le (a b : double) : bool :=
  match a, b with
  | NaN, _ | _, NaN => false
  | NegInf, _ => true
  | _, PosInf => true
  | _, NegInf => false
  | PosInf, _ => false
  | Fin x, Fin y => bool_decide (x <= y)%R
  end.

Definition d_is_nan (a : double) : bool :=
  match a with NaN => true | _ => false end.

(** ** The parameter list *)

Definition NA_INTEGER : Z := (- 2147483648)%Z.

(** [param]: the entries [mu], [t.inf] and [alpha] of the R list. *)
Record Param : Type := mkParam {
  mu : double;
  t_inf : list Z;
  alpha : list Z
}.

Definition set_mu (m : double) (p : Param) : Param :=
  {| mu := m; t_inf := t_inf p; alpha := alpha p |}.

Definition set_t_inf (t : list Z) (p : Param) : Param :=
  {| mu := mu p; t_inf := t; alpha := alpha p |}.

Definition set_alpha (a : list Z) (p : Param) : Param :=
  {| mu := mu p; t_inf := t_inf p; alpha := a |}.

(** [config]: only [sd.mu] is read. *)
Record Config : Type := mkConfig { sd_mu : double }.

(** ** Collaborators *)

(** [data] is an R list of which the moves read ["N"]; the rest is for
    the likelihoods. *)
Class CaseData (Data : Type) : Type := {
  data_N : Data -> nat
}.

(** likelihoods.h. The last argument is the [SEXP i] of the source:
    [None] is [R_NilValue] (all cases), [Some k] is case [k] on the
    scale 1..N. *)
Class Likelihoods (Data : Type) : Type := {
  cpp_ll_genetic : Data -> Param -> option nat -> double;
  cpp_ll_timing : Data -> Param -> option nat -> double;
  cpp_ll_all : Data -> Param -> option nat -> double
}.

(** R's random numbers: [unif_rand()] and [R::rnorm(mean, sd)]. *)
Class Rmath (Rng : Type) : Type := {
  unif_rand : Rng -> R * Rng;
  rnorm : double -> double -> Rng -> double * Rng
}.

(** internals.h: [cpp_pick_possible_ancestor(t_inf, i)]; the result is
    what the move stores in the [IntegerVector]. *)
Class Internals (Rng : Type) : Type := {
  cpp_pick_possible_ancestor : list Z -> nat -> Rng -> Z * Rng
}.

(** One acceptance test, as seen from outside: the two
    log-likelihoods, the uniform draw, and whether the proposal was
    rejected.  The log is not part of the program's state; it names
    the values the source holds in [old_loglike], [new_loglike] and
    the result of [p_accept < unif_rand()]. *)
Record event : Type := mkEvent {
  ev_old_loglike : double;
  ev_new_loglike : double;
  ev_draw : R;
  ev_rejected : bool
}.

(** [for (i = lo; i < lo + n; i++) body], stopping at the first
    undefined access. *)
Fixpoint for_loop {St : Type} (body : nat -> St -> option St)
    (lo n : nat) (s : St) : option St :=
  match n with
  | O => Some s
  | S n' => s' ← body lo s; for_loop body (S lo) n' s'
  end.

(** [sum(t < x)] of Rcpp sugar on an [IntegerVector]: a comparison
    is NA when the entry or [x] is NA, the sum is NA as soon as one
    comparison is, and else it is the number of entries of [t] below
    [x]. *)
Definition sum_lt (t : list Z) (x : Z) : Z :=
  if forallb (λ y, negb (y =? NA_INTEGER)%Z && negb (x =? NA_INTEGER)%Z) t
  then Z.of_nat (length (filter (λ y, (y < x)%Z) t))
  else NA_INTEGER.

(** Which vector the entry ["t.inf"] of [new_param] designates in
    [cpp_move_t_inf]: the working copy [new_t_inf], or the caller's
    [t_inf]. *)
Inductive t_inf_entry : Type :=
  | Entry_new_t_inf
  | Entry_t_inf.

Section Moves.
Context {Data Rng : Type}.
Context {CD : CaseData Data} {LL : Likelihoods Data}.
Context {RM : Rmath Rng} {IN : Internals Rng}.

(** *** cpp_move_mu *)

(** [mu[0] + R::rnorm(0, sd_mu)], and the generator after the draw *)
Definition mu_proposal (param : Param) (config : Config) (g : Rng)
  : double * Rng :=
  let '(eps, g) := rnorm (Fin 0) (sd_mu config) g in
  (d_add (mu param) eps, g).

Definition cpp_move_mu_log (data : Data) (param : Param) (config : Config)
    (g : Rng) : Param * Rng * event :=
  let new_param := param in                        (* clone(param) *)
  let old_loglike := cpp_ll_genetic data param None in
  let '(new_mu, g) := mu_proposal param config g in
  let new_param := set_mu new_mu new_param in
  let new_loglike := cpp_ll_genetic data new_param None in
  let p_accept := d_exp (d_sub new_loglike old_loglike) in
  let '(u, g) := unif_rand g in
  let rejected := d_lt p_accept (Fin u) in
  let new_param :=
    if rejected then set_mu (mu param) new_param else new_param in
  (new_param, g, mkEvent old_loglike new_loglike u rejected).

Definition cpp_move_mu (data : Data) (param : Param) (config : Config)
    (g : Rng) : Param * Rng :=
  (cpp_move_mu_log data param config g).1.

(** The value of [p_accept] in [cpp_move_mu]: [exp(new_loglike -
    old_loglike)]. *)
Definition mu_p_accept (data : Data) (param : Param) (config : Config)
    (g : Rng) : double :=
  let new_mu := (mu_proposal param config g).1 in
  d_exp (d_sub (cpp_ll_genetic data (set_mu new_mu param) None)
               (cpp_ll_genetic data param None)).

(** The uniform draw of the acceptance test in [cpp_move_mu]. *)
Definition mu_draw (param : Param) (config : Config) (g : Rng) : R :=
  (unif_rand (mu_proposal param config g).2).1.

(** The acceptance rule in the words of the specification: the
    proposed value if [u <= exp(new_ll - old_ll)], else the value
    before the proposal. *)
Definition mu_rule_as_specified (data : Data) (param : Param)
    (config : Config) (g : Rng) : Prop :=
  mu (cpp_move_mu data param config g).1 =
    if d_le (Fin (mu_draw param config g)) (mu_p_accept data param config g)
    then (mu_proposal param config g).1
    else mu param.

(** *** cpp_move_t_inf *)

(** The locals that change in the loop: the contents of
    [new_t_inf], what [new_param["t.inf"]] designates, the
    generator, and the log of the acceptance tests so far. *)
Record t_inf_state : Type := mkTInfState {
  ts_new_t_inf : list Z;
  ts_entry : t_inf_entry;
  ts_rng : Rng;
  ts_log : list event
}.

(** [new_param] as the likelihood and the caller see it: the clone
    of [param], with ["t.inf"] read through the entry. *)
Definition ts_new_param (param : Param) (s : t_inf_state) : Param :=
  set_t_inf
    (match ts_entry s with
     | Entry_new_t_inf => ts_new_t_inf s
     | Entry_t_inf => t_inf param
     end) param.

Definition t_inf_body (data : Data) (param : Param) (i : nat)
    (s : t_inf_state) : option t_inf_state :=
  let old_loglike := cpp_ll_timing data param None in
  (* new_t_inf[i] += unif_rand() > 0.5 ? 1 : -1 *)
  let '(u, g) := unif_rand (ts_rng s) in
  x ← ts_new_t_inf s !! i;
  let new_t_inf :=
    <[i := (x + (if bool_decide (1 / 2 < u)%R then 1 else -1))%Z]>
      (ts_new_t_inf s) in
  (* new_param["t.inf"] = new_t_inf *)
  let s := mkTInfState new_t_inf Entry_new_t_inf g (ts_log s) in
  let new_loglike := cpp_ll_timing data (ts_new_param param s) None in
  let p_accept := d_exp (d_sub new_loglike old_loglike) in
  let '(u, g) := unif_rand g in
  let rejected := d_lt p_accept (Fin u) in
  let log := ts_log s ++ [mkEvent old_loglike new_loglike u rejected] in
  if rejected then
    (* new_t_inf[i] = t_inf[i]; new_param["t.inf"] = t_inf *)
    y ← t_inf param !! i;
    Some (mkTInfState (<[i := y]> new_t_inf) Entry_t_inf g log)
  else
    Some (mkTInfState new_t_inf Entry_new_t_inf g log).

Definition cpp_move_t_inf_log (data : Data) (param : Param) (g : Rng)
    : option (Param * Rng * list event) :=
  (* clone(param): new_t_inf starts as a copy, the entry designates it *)
  let s := mkTInfState (t_inf param) Entry_new_t_inf g [] in
  s ← for_loop (t_inf_body data param) 0 (data_N data) s;
  Some (ts_new_param param s, ts_rng s, ts_log s).

Definition cpp_move_t_inf (data : Data) (param : Param) (g : Rng)
    : option (Param * Rng) :=
  r ← cpp_move_t_inf_log data param g; Some r.1.

(** *** cpp_move_alpha *)

(** The locals that change in the loop: the contents of
    [new_alpha], the generator, and the log ([None] for a case that
    is skipped). *)
Record alpha_state : Type := mkAlphaState {
  as_new_alpha : list Z;
  as_rng : Rng;
  as_log : list (option event)
}.

(** [alpha[i] != NA_INTEGER && sum(t_inf < t_inf[i]) > 0]; the right
    operand is evaluated only when the left one holds, and an NA sum
    is not above 0. *)
Definition alpha_guard (param : Param) (i : nat) : option bool :=
  a ← alpha param !! i;
  if negb (a =? NA_INTEGER)%Z then
    ti ← t_inf param !! i;
    Some (sum_lt (t_inf param) ti >? 0)%Z
  else Some false.

Definition alpha_body (data : Data) (param : Param) (i : nat)
    (s : alpha_state) : option alpha_state :=
  b ← alpha_guard param i;
  if b : bool then
    let old_loglike := cpp_ll_all data param None in
    let old_loglike2 := cpp_ll_all data param (Some (i + 1)) in
    (* new_alpha[i] = cpp_pick_possible_ancestor(t_inf, i) *)
    let '(c, g) := cpp_pick_possible_ancestor (t_inf param) i (as_rng s) in
    _ ← as_new_alpha s !! i;
    let new_alpha := <[i := c]> (as_new_alpha s) in
    (* new_param["alpha"] = new_alpha *)
    let new_param := set_alpha new_alpha param in
    let new_loglike := cpp_ll_all data new_param None in
    let new_loglike2 := cpp_ll_all data new_param (Some (i + 1)) in
    let p_accept := d_exp (d_sub new_loglike old_loglike) in
    let p_accept2 := d_exp (d_sub new_loglike2 old_loglike2) in
    let '(u, g) := unif_rand g in
    let rejected := d_lt p_accept (Fin u) in
    let log :=
      as_log s ++ [Some (mkEvent old_loglike new_loglike u rejected)] in
    if rejected then
      (* new_alpha[i] = alpha[i] *)
      a ← alpha param !! i;
      Some (mkAlphaState (<[i := a]> new_alpha) g log)
    else
      Some (mkAlphaState new_alpha g log)
  else
    Some (mkAlphaState (as_new_alpha s) (as_rng s) (as_log s ++ [None])).

Definition cpp_move_alpha_log (data : Data) (param : Param) (g : Rng)
    : option (Param * Rng * list (option event)) :=
  let s := mkAlphaState (alpha param) g [] in
  s ← for_loop (alpha_body data param) 0 (data_N data) s;
  Some (set_alpha (as_new_alpha s) param, as_rng s, as_log s).

Definition cpp_move_alpha (data : Data) (param : Param) (g : Rng)
    : option (Param * Rng) :=
  r ← cpp_move_alpha_log data param g; Some r.1.

End Moves.

Arguments t_inf_state : clear implicits.
Arguments alpha_state : clear implicits.

(** ** Invariants of the sweeps *)

Section Invariants.
Context {Data Rng : Type}.
Context {CD : CaseData Data} {LL : Likelihoods Data}.
Context {RM : Rmath Rng} {IN : Internals Rng}.
Variable data : Data.
Variable param : Param.

(** What the log says of the test of one case, and what a rejection
    leaves in the working vector [v]. *)
Definition t_inf_event_ok (v : list Z) (i : nat) (ev : event) : Prop :=
  ev_old_loglike ev = cpp_ll_timing data param None ∧
  ev_rejected ev =
    d_lt (d_exp (d_sub (ev_new_loglike ev) (ev_old_loglike ev)))
         (Fin (ev_draw ev)) ∧
  (∃ g, ev_draw ev = (unif_rand g).1) ∧
  (ev_rejected ev = true → v !! i = t_inf param !! i).

(** The state before case [k] is scanned. *)
Definition t_inf_inv (k : nat) (s : t_inf_state Rng) : Prop :=
  length (ts_new_t_inf s) = length (t_inf param) ∧
  length (ts_log s) = k ∧
  (∀ j, k ≤ j → ts_new_t_inf s !! j = t_inf param !! j) ∧
  (∀ i ev, ts_log s !! i = Some ev →
     t_inf_event_ok (ts_new_t_inf s) i ev) ∧
  ts_entry s =
    match last (ts_log s) with
    | Some ev => if ev_rejected ev then Entry_t_inf else Entry_new_t_inf
    | None => Entry_new_t_inf
    end.

(** Case [i] (internal index) has ancestor [c] (scale 1..N)
    infected strictly before it. *)
Definition precedes (t : list Z) (c : Z) (i : nat) : Prop :=
  (1 ≤ c)%Z ∧
  ∃ tc ti, t !! Z.to_nat (c - 1) = Some tc ∧ t !! i = Some ti ∧ (tc < ti)%Z.

(** Every ancestor that is not NA precedes its descendant. *)
Definition ancestors_precede (t a : list Z) : Prop :=
  ∀ i c, a !! i = Some c → c ≠ NA_INTEGER → precedes t c i.

(** Case [i] (internal index) is not eligible for the ancestry
    move: its ancestor is NA, or no case is infected strictly
    before it. *)
Definition ineligible (i : nat) : Prop :=
  alpha param !! i = Some NA_INTEGER ∨
  ∃ ti, t_inf param !! i = Some ti ∧
        ∀ tj, tj ∈ t_inf param → ¬ (tj < ti)%Z.

(** What the log says of the test of one eligible case, and what
    the test leaves in the working vector [v]. *)
Definition alpha_event_ok (v : list Z) (i : nat) (ev : event) : Prop :=
  ev_old_loglike ev = cpp_ll_all data param None ∧
  ev_rejected ev =
    d_lt (d_exp (d_sub (ev_new_loglike ev) (ev_old_loglike ev)))
         (Fin (ev_draw ev)) ∧
  (∃ g, ev_draw ev = (unif_rand g).1) ∧
  alpha_guard param i = Some true ∧
  (ev_rejected ev = true → v !! i = alpha param !! i) ∧
  (ev_rejected ev = false →
     ∃ g, v !! i = Some (cpp_pick_possible_ancestor (t_inf param) i g).1).

(** The state before case [k] is scanned. *)
Definition alpha_inv (k : nat) (s : alpha_state Rng) : Prop :=
  length (as_new_alpha s) = length (alpha param) ∧
  length (as_log s) = k ∧
  (∀ j, k ≤ j → as_new_alpha s !! j = alpha param !! j) ∧
  (∀ i, as_log s !! i = Some None →
     alpha_guard param i = Some false ∧
     as_new_alpha s !! i = alpha param !! i) ∧
  (∀ i ev, as_log s !! i = Some (Some ev) →
     alpha_event_ok (as_new_alpha s) i ev).
End Invariants.

(** ** The sequence of uniform draws *)

Section Draws.
Context {Rng : Type} {RM : Rmath Rng}.

(** The generator after [k] calls of [unif_rand()]. *)
Definition after_draws (k : nat) (g : Rng) : Rng :=
  Nat.iter k (λ g0, (unif_rand g0).2) g.

(** The value returned by call number [k] (from 0) of [unif_rand()]. *)
Definition nth_draw (k : nat) (g : Rng) : R :=
  (unif_rand (after_draws k g)).1.

(** [unif_rand() > 0.5 ? 1 : -1] *)
Definition t_inf_shift (u : R) : Z :=
  if bool_decide (1 / 2 < u)%R then 1%Z else (-1)%Z.

(** The sweep over infection times started from generator [g], before
    case [k] is scanned: two draws were made per case, the test of
    case [i] used draw [2i+1], and the working vector holds for case
    [i] the input date if the test rejected, the date shifted
    according to draw [2i] if not. *)
Definition t_inf_trace_inv (param : Param) (g : Rng) (k : nat)
    (s : t_inf_state Rng) : Prop :=
  ts_rng s = after_draws (2 * k) g ∧
  length (ts_log s) = k ∧
  length (ts_new_t_inf s) = length (t_inf param) ∧
  (∀ j, k ≤ j → ts_new_t_inf s !! j = t_inf param !! j) ∧
  ∀ i ev, ts_log s !! i = Some ev →
    ev_draw ev = nth_draw (2 * i + 1) g ∧
    ∃ ti, t_inf param !! i = Some ti ∧
      ts_new_t_inf s !! i =
        Some (if ev_rejected ev then ti
              else (ti + t_inf_shift (nth_draw (2 * i) g))%Z).
End Draws.

(** Every ancestor that is not NA is infected more than [d] time
    units before its descendant ([d = 0]: [ancestors_precede]). *)
Definition ancestors_precede_by (d : Z) (t a : list Z) : Prop :=
  ∀ i c, a !! i = Some c → c ≠ NA_INTEGER →
    (1 ≤ c)%Z ∧
    ∃ tc ti, t !! Z.to_nat (c - 1) = Some tc ∧ t !! i = Some ti ∧
             (tc + d < ti)%Z.

(** Case [i] (internal index) passes the guard of the ancestry move:
    its ancestor is not NA, no date is missing, and some case is
    infected strictly before it. *)
Definition eligible (param : Param) (i : nat) : Prop :=
  ∃ a ti, alpha param !! i = Some a ∧ a ≠ NA_INTEGER ∧
          t_inf param !! i = Some ti ∧
          (∀ tj, tj ∈ t_inf param → tj ≠ NA_INTEGER) ∧
          ∃ tj, tj ∈ t_inf param ∧ (tj < ti)%Z.

(** ** Stand-ins for the collaborators

    Small deterministic collaborators, to run the moves on concrete
    snapshots. *)

#[global] Instance Req_decision (x y : R) : Decision (x = y) := Req_dec_T x y.

(** The data reduced to its number of cases. *)
Definition count_data : CaseData nat := {| data_N := λ n, n |}.

(** The three likelihoods given by one score of the snapshot. *)
Definition score_ll (f : Param -> double) : Likelihoods nat :=
  {| cpp_ll_genetic := λ _ p _, f p;
     cpp_ll_timing := λ _ p _, f p;
     cpp_ll_all := λ _ p _, f p |}.

(** As [score_ll], with a separate score for the calls restricted to
    one case. *)
Definition score_ll_case (f : Param -> double) (h : Param -> nat -> double)
    : Likelihoods nat :=
  {| cpp_ll_genetic := λ _ p _, f p;
     cpp_ll_timing := λ _ p _, f p;
     cpp_ll_all := λ _ p o, match o with None => f p | Some k => h p k end |}.

(** A generator that replays a fixed sequence: its state is the number
    of draws made.  [rnorm] follows R's: NaN for a NaN mean or a
    negative or non-finite deviation, the mean when the deviation is
    zero or the mean is infinite, else mean + deviation * next draw. *)
Definition replay (draws : nat -> R) : Rmath nat :=
  {| unif_rand := λ n, (draws n, S n);
     rnorm := λ m sd n,
       match m, sd with
       | NaN, _ => (NaN, n)
       | _, Fin s =>
           if bool_decide (s < 0)%R then (NaN, n)
           else if bool_decide (s = 0%R) then (m, n)
           else match m with
                | Fin x => (Fin (x + s * draws n), S n)
                | _ => (m, n)
                end
       | _, _ => (NaN, n)
       end |}.

(** A sampler that takes the first case infected before case [i]
    (internal index), on the scale 1..N; 0 if there is none. *)
Definition first_earlier (t : list Z) (i : nat) : Z :=
  match t !! i with
  | Some ti =>
      match list_find (λ y, (y < ti)%Z) t with
      | Some (j, _) => Z.of_nat j + 1
      | None => 0
      end
  | None => 0
  end.

Definition pick_first : Internals nat :=
  {| cpp_pick_possible_ancestor := λ t i g, (first_earlier t i, g) |}.

(** As [pick_first], with [d] in place of 0 when no case is infected
    before case [i]. *)
Definition pick_first_or (d : Z) : Internals nat :=
  {| cpp_pick_possible_ancestor := λ t i g,
       (if (first_earlier t i =? 0)%Z then d else first_earlier t i, g) |}.

(** The three likelihoods given by three scores of the snapshot. *)
Definition score_ll3 (fg ft fa : Param -> double) : Likelihoods nat :=
  {| cpp_ll_genetic := λ _ p _, fg p;
     cpp_ll_timing := λ _ p _, ft p;
     cpp_ll_all := λ _ p _, fa p |}.

(** Modelled from the spec: the candidates of
    [cpp_pick_possible_ancestor] (internals.h, which is not under
    src/).  The specification has the sampler, given the dates and a
    case identifier on the scale 1..N, return the identifier, on the
    scale 1..N, of a case infected strictly before that case.
    [earlier_ids t x id] lists the identifiers of the cases of [t]
    infected before date [x], the first case having identifier
    [id]. *)
Fixpoint earlier_ids (t : list Z) (x : Z) (id : Z) : list Z :=
  match t with
  | [] => []
  | y :: t' =>
      if (y <? x)%Z then id :: earlier_ids t' x (id + 1)
      else earlier_ids t' x (id + 1)
  end.

(** Modelled from the spec: the pool of [cpp_pick_possible_ancestor]
    for the case of identifier [case_id] (scale 1..N): the cases
    whose infection time strictly precedes [t_inf[case_id]]. *)
Definition possible_ancestors (t : list Z) (case_id : nat) : list Z :=
  match case_id with
  | O => []
  | S k =>
      match t !! k with
      | Some tk => earlier_ids t tk 1
      | None => []
      end
  end.

(** Modelled from the spec: the uniform choice of
    [cpp_pick_possible_ancestor] among [n] candidates, by one draw
    [u] of unif_rand(): the candidate of rank floor(u * n).  The
    specification leaves the empty pool undefined; it gives 0
    here. *)
Fixpoint choose_uniform (l : list Z) (u : R) (n k : Z) : Z :=
  match l with
  | [] => 0%Z
  | [c] => c
  | c :: l' =>
      if bool_decide (u * IZR n < IZR (k + 1))%R then c
      else choose_uniform l' u n (k + 1)
  end.

(** Modelled from the spec: [cpp_pick_possible_ancestor(t_inf,
    case_id)] of internals.h, with [case_id] on the scale 1..N as
    the specification has it for every identifier that crosses an
    interface. *)
Definition spec_sampler {Rng : Type} {RM : Rmath Rng} : Internals Rng :=
  {| cpp_pick_possible_ancestor := λ t case_id g,
       let '(u, g') := unif_rand g in
       let pool := possible_ancestors t case_id in
       (choose_uniform pool u (Z.of_nat (length pool)) 0, g') |}.

(** Three cases infected at dates 0, 5 and 3; the third one is
    infected by the first, the others have no known ancestor. *)
Definition crossed_cases : Param :=
  {| mu := Fin (1 / 2); t_inf := [0; 5; 3]%Z;
     alpha := [NA_INTEGER; NA_INTEGER; 1%Z] |}.

(** Three cases of which the first has no known date, each infected
    by the previous one. *)
Definition undated_case : Param :=
  {| mu := Fin (1 / 2); t_inf := [NA_INTEGER; 10; 20]%Z;
     alpha := [NA_INTEGER; 1; 2]%Z |}.

(** Draws 3/4, 1/2, 3/4, 1/2, ... *)
Definition draws_34_12 (n : nat) : R :=
  if Nat.even n then (3 / 4)%R else (1 / 2)%R.

(** Two cases infected at dates 10 and 20, the second by the first. *)
Definition two_cases : Param :=
  {| mu := Fin (1 / 2); t_inf := [10; 20]%Z; alpha := [NA_INTEGER; 1%Z] |}.

(** A genetic score as the source describes it: values of [mu]
    outside [0;1] are impossible, the rest is flat. *)
Definition unit_interval_ll (p : Param) : double :=
  match mu p with
  | Fin m => if bool_decide (0 <= m)%R && bool_decide (m <= 1)%R
             then Fin 0 else NegInf
  | _ => NegInf
  end.

(** A genetic score that is undefined (NaN, as the logarithm of a
    negative number) for values of [mu] outside [0;1]. *)
Definition log_domain_ll (p : Param) : double :=
  match mu p with
  | Fin m => if bool_decide (0 <= m)%R && bool_decide (m <= 1)%R
             then Fin 0 else NaN
  | _ => NaN
  end.

(** One case, with a mutation rate of 2. *)
Definition mu_is_2 : Param :=
  {| mu := Fin 2; t_inf := [10%Z]; alpha := [NA_INTEGER] |}.

(** Three cases at dates 10, 20 and 30; the third one is infected by
    the second, the others have no known ancestor. *)
Definition three_cases : Param :=
  {| mu := Fin (1 / 2); t_inf := [10; 20; 30]%Z;
     alpha := [NA_INTEGER; NA_INTEGER; 2%Z] |}.

(** A score that is flat on the dates and ancestries of
    [three_cases] and rules out any other. *)
Definition only_three_cases (p : Param) : double :=
  match t_inf p, alpha p with
  | [a; b; c], [d; e; f] =>
      if ((a =? 10) && (b =? 20) && (c =? 30) &&
          (d =? NA_INTEGER) && (e =? NA_INTEGER) && (f =? 2))%Z
      then unit_interval_ll p else NegInf
  | _, _ => NegInf
  end.

(** A timing score that prefers the dates (11, 20) and is flat
    elsewhere. *)
Definition prefer_11_20 (p : Param) : double :=
  match t_inf p with
  | [a; b] => if ((a =? 11) && (b =? 20))%Z then Fin 5 else Fin 0
  | _ => Fin 0
  end.

(** A timing score that rules out the dates (11, 21) and is flat
    elsewhere. *)
Definition forbid_11_21 (p : Param) : double :=
  match t_inf p with
  | [a; b] => if ((a =? 11) && (b =? 21))%Z then NegInf else Fin 0
  | _ => Fin 0
  end.

(** * Properties *)

(** Evaluation of a move on a concrete snapshot: compute, and settle
    each comparison of reals as it shows up. *)
Ltac run :=
  cbv -[bool_decide Rlt_decision Rle_decision Req_decision exp
        Rdiv IZR Rminus Rplus Rmult Rinv Ropp Rlt Rle].

Ltac decide_R tac :=
  match goal with
  | |- context [bool_decide (?a < ?b)%R] =>
      first [ rewrite (bool_decide_eq_true_2 (a < b)%R) by tac
            | rewrite (bool_decide_eq_false_2 (a < b)%R) by tac ]
  | |- context [bool_decide (?a <= ?b)%R] =>
      first [ rewrite (bool_decide_eq_true_2 (a <= b)%R) by tac
            | rewrite (bool_decide_eq_false_2 (a <= b)%R) by tac ]
  | |- context [bool_decide (@eq R ?a ?b)] =>
      first [ rewrite (bool_decide_eq_true_2 (a = b)) by tac
            | rewrite (bool_decide_eq_false_2 (a = b)) by tac ]
  end.

Ltac run_with tac := run; repeat (decide_R tac; run).

(** ** Loops *)

Lemma for_loop_inv {St : Type} (body : nat -> St -> option St)
    (P : nat -> St -> Prop) :
  (∀ i s s', P i s → body i s = Some s' → P (S i) s') →
  ∀ n lo s s', P lo s → for_loop body lo n s = Some s' → P (lo + n) s'.
Proof.
  intros Hstep n. induction n as [|n IH]; intros lo s s' HP Hrun.
  - simpl in Hrun. injection Hrun as <-. by rewrite Nat.add_0_r.
  - simpl in Hrun. destruct (body lo s) as [s1|] eqn:Hb; [|done].
    simpl in Hrun. replace (lo + S n) with (S lo + n) by lia.
    eapply IH; [|exact Hrun]. eauto.
Qed.

Lemma for_loop_total {St : Type} (body : nat -> St -> option St)
    (P : nat -> St -> Prop) (hi : nat) :
  (∀ i s, i < hi → P i s → ∃ s', body i s = Some s' ∧ P (S i) s') →
  ∀ n lo s, lo + n ≤ hi → P lo s →
    ∃ s', for_loop body lo n s = Some s' ∧ P (lo + n) s'.
Proof.
  intros Hstep n. induction n as [|n IH]; intros lo s Hle HP.
  - exists s. simpl. by rewrite Nat.add_0_r.
  - destruct (Hstep lo s) as (s1 & Hb & HP1); [lia|done|].
    destruct (IH (S lo) s1) as (s' & Hrun & HP'); [lia|done|].
    exists s'. simpl. rewrite Hb. simpl.
    replace (lo + S n) with (S lo + n) by lia. done.
Qed.

Lemma for_loop_ext {St : Type} (body1 body2 : nat -> St -> option St) :
  (∀ i s, body1 i s = body2 i s) →
  ∀ n lo s, for_loop body1 lo n s = for_loop body2 lo n s.
Proof.
  intros Hext n. induction n as [|n IH]; intros lo s; [done|].
  simpl. rewrite Hext. destruct (body2 lo s); simpl; [apply IH|done].
Qed.

(** ** Doubles *)

Example d_sub_inf_inf : d_sub NegInf NegInf = NaN ∧ d_sub PosInf PosInf = NaN.
Proof. done. Qed.

Example d_sub_fin_inf (x : R) :
  d_sub (Fin x) NegInf = PosInf ∧ d_sub NegInf (Fin x) = NegInf.
Proof. done. Qed.

Example d_lt_nan (a : double) : d_lt NaN a = false ∧ d_lt a NaN = false.
Proof. by destruct a. Qed.

Example d_le_nan (a : double) : d_le NaN a = false ∧ d_le a NaN = false.
Proof. by destruct a. Qed.

Lemma d_add_0_r (a : double) : d_add a (Fin 0) = a.
Proof. destruct a; simpl; try done. f_equal. lra. Qed.

Lemma d_lt_Fin (x y : R) : d_lt (Fin x) (Fin y) = bool_decide (x < y)%R.
Proof. done. Qed.

Lemma d_le_Fin (x y : R) : d_le (Fin x) (Fin y) = bool_decide (x <= y)%R.
Proof. done. Qed.

(** Away from NaN, [u <= p] is the negation of [p < u]. *)
Lemma d_le_negb_lt (p : double) (u : R) :
  p ≠ NaN → d_le (Fin u) p = negb (d_lt p (Fin u)).
Proof.
  intros Hp. destruct p as [| | |x]; try done.
  rewrite d_le_Fin, d_lt_Fin.
  destruct (decide (u <= x)%R) as [Hle|Hle].
  - rewrite bool_decide_eq_true_2 by done.
    rewrite bool_decide_eq_false_2 by lra. done.
  - rewrite bool_decide_eq_false_2 by done.
    rewrite bool_decide_eq_true_2 by lra. done.
Qed.

(** A candidate of log-likelihood minus infinity against a finite
    baseline has acceptance ratio zero. *)
Lemma p_accept_NegInf (x : R) : d_exp (d_sub NegInf (Fin x)) = Fin 0.
Proof. done. Qed.

Lemma exp_neg_bound (x : R) : (0 < x)%R → (exp (- x) < / (1 + x))%R.
Proof.
  intros Hx. rewrite exp_Ropp.
  apply Rinv_lt_contravar.
  - apply Rmult_lt_0_compat; [lra|apply exp_pos].
  - apply exp_ineq1. lra.
Qed.


(** ** The sweep over infection times *)

Section TInfSweep.
Context {Data Rng : Type}.
Context {CD : CaseData Data} {LL : Likelihoods Data} {RM : Rmath Rng}.
Variable data : Data.
Variable param : Param.

Lemma t_inf_body_step (i : nat) (s : t_inf_state Rng) :
  i < length (t_inf param) → t_inf_inv data param i s →
  ∃ s', t_inf_body data param i s = Some s' ∧ t_inf_inv data param (S i) s'.
Proof.
  intros Hi (Hlen & Hlog & Hrest & Hev & _).
  unfold t_inf_body.
  destruct (unif_rand (ts_rng s)) as [u1 g1].
  destruct (lookup_lt_is_Some_2 (ts_new_t_inf s) i) as [x Hx]; [lia|].
  destruct (lookup_lt_is_Some_2 (t_inf param) i) as [y Hy]; [lia|].
  rewrite Hx. simpl.
  set (v := <[i:=_]> (ts_new_t_inf s)).
  set (old := cpp_ll_timing data param None).
  set (new := cpp_ll_timing data _ None).
  destruct (unif_rand g1) as [u2 g2] eqn:Hu2.
  set (rej := d_lt _ _).
  assert (Hlenv : length v = length (t_inf param))
    by (unfold v; by rewrite length_insert).
  assert (Hother : ∀ v' : list Z, (∀ j, j ≠ i → v' !! j = v !! j) →
    (rej = true → v' !! i = t_inf param !! i) →
    length v' = length (t_inf param) →
    t_inf_inv data param (S i) (mkTInfState v'
      (if rej then Entry_t_inf else Entry_new_t_inf) g2
      (ts_log s ++ [mkEvent old new u2 rej]))).
  { intros v' Hne Hrej Hlen'. split; [done|]. split.
    { simpl. rewrite length_app. simpl. lia. }
    split.
    { simpl. intros j Hj. rewrite Hne by lia. unfold v.
      rewrite list_lookup_insert_ne by lia. apply Hrest. lia. }
    split; [|simpl; by rewrite last_snoc].
    simpl. intros k ev [[Hk Hin]|[-> <-]]%lookup_snoc_Some.
    - destruct (Hev k ev Hin) as (H1 & H2 & H3 & H4).
      repeat split; try done.
      intros Hr. rewrite Hne by lia. unfold v.
      rewrite list_lookup_insert_ne by lia. by apply H4.
    - repeat split; simpl; try done.
      + exists g1. by rewrite Hu2.
      + by rewrite Hlog. }
  destruct rej eqn:Hrejd.
  - rewrite Hy. simpl. eexists. split; [done|].
    apply (Hother (<[i:=y]> v)).
    + intros j Hj. by rewrite list_lookup_insert_ne.
    + intros _. rewrite list_lookup_insert_eq by lia. done.
    + by rewrite length_insert.
  - eexists. split; [done|]. by apply (Hother v).
Qed.

Lemma t_inf_sweep (g : Rng) :
  data_N data ≤ length (t_inf param) →
  ∃ s, for_loop (t_inf_body data param) 0 (data_N data)
         (mkTInfState (t_inf param) Entry_new_t_inf g []) = Some s ∧
       t_inf_inv data param (data_N data) s.
Proof.
  intros Hle.
  apply (for_loop_total _ (t_inf_inv data param) (length (t_inf param))).
  - intros i s Hi. by apply t_inf_body_step.
  - lia.
  - repeat split; simpl; done.
Qed.

(** The result of the sweep: it returns as soon as [N] is within
    the vector, touches ["t.inf"] only, below [N] only, and for each
    case the log holds the test that was made. *)
Lemma cpp_move_t_inf_log_spec (g : Rng) :
  data_N data ≤ length (t_inf param) →
  ∃ r g' log,
    cpp_move_t_inf_log data param g = Some (r, g', log) ∧
    mu r = mu param ∧ alpha r = alpha param ∧
    length log = data_N data ∧
    (∀ j, data_N data ≤ j → t_inf r !! j = t_inf param !! j) ∧
    (∀ i ev, log !! i = Some ev → t_inf_event_ok data param (t_inf r) i ev) ∧
    (∀ ev, last log = Some ev → ev_rejected ev = true →
       t_inf r = t_inf param).
Proof.
  intros Hle. destruct (t_inf_sweep g Hle) as (s & Hrun & Hinv).
  destruct Hinv as (Hlen & Hlog & Hrest & Hev & Hentry).
  exists (ts_new_param param s), (ts_rng s), (ts_log s).
  unfold cpp_move_t_inf_log. rewrite Hrun. simpl.
  repeat split; try done.
  - intros j Hj. unfold ts_new_param. simpl.
    destruct (ts_entry s); [by apply Hrest|done].
  - by apply (Hev i ev).
  - by apply (Hev i ev).
  - by apply (Hev i ev).
  - intros Hr. unfold ts_new_param. simpl.
    destruct (ts_entry s); [by apply (Hev i ev)|done].
  - intros ev Hlast Hr. unfold ts_new_param. simpl.
    by rewrite Hentry, Hlast, Hr.
Qed.

(** Whatever the input, every test of the sweep is made against the
    timing log-likelihood of the snapshot the move was given. *)
Lemma move_t_inf_baseline_always_input (g : Rng) :
  data_N data ≤ length (t_inf param) →
  ∃ r g' log,
    cpp_move_t_inf_log data param g = Some (r, g', log) ∧
    ∀ ev, ev ∈ log → ev_old_loglike ev = cpp_ll_timing data param None.
Proof.
  intros Hle. destruct (cpp_move_t_inf_log_spec g Hle)
    as (r & g' & log & Hrun & _ & _ & _ & _ & Hev & _).
  exists r, g', log. split; [done|].
  intros ev [i Hi]%list_elem_of_lookup_1. by apply (Hev i ev).
Qed.

(** Whatever the input, when the test of the last case rejects, the
    sweep returns the infection times it was given. *)
Lemma move_t_inf_reverts_when_last_rejected (g : Rng) :
  data_N data ≤ length (t_inf param) →
  ∃ r g' log,
    cpp_move_t_inf_log data param g = Some (r, g', log) ∧
    ∀ ev, last log = Some ev → ev_rejected ev = true →
      t_inf r = t_inf param.
Proof.
  intros Hle. destruct (cpp_move_t_inf_log_spec g Hle)
    as (r & g' & log & Hrun & _ & _ & _ & _ & _ & Hlast).
  by exists r, g', log.
Qed.
End TInfSweep.

(** ** The sweep over ancestries *)

Lemma sum_lt_pos (t : list Z) (x : Z) :
  (sum_lt t x > 0)%Z ↔
  x ≠ NA_INTEGER ∧ (∀ y, y ∈ t → y ≠ NA_INTEGER) ∧
  ∃ y, y ∈ t ∧ (y < x)%Z.
Proof.
  unfold sum_lt.
  destruct (forallb _ t) eqn:Hall.
  - rewrite forallb_forall in Hall.
    assert (Hno : ∀ y, y ∈ t → y ≠ NA_INTEGER).
    { intros y Hin%list_elem_of_In. apply Hall in Hin.
      apply andb_true_iff in Hin as [Hy _].
      apply negb_true_iff in Hy. by apply Z.eqb_neq. }
    split.
    + intros Hpos.
      destruct (filter (λ y, (y < x)%Z) t) as [|y l] eqn:Hf.
      * simpl in Hpos. lia.
      * assert (Hy : y ∈ filter (λ y, (y < x)%Z) t) by (rewrite Hf; left).
        apply list_elem_of_filter in Hy as [Hlt Hin].
        split; [|split; [done|by exists y]].
        apply list_elem_of_In, Hall, andb_true_iff in Hin as [_ Hx].
        apply negb_true_iff in Hx. by apply Z.eqb_neq.
    + intros (_ & _ & y & Hin & Hlt).
      assert (Hy : y ∈ filter (λ y, (y < x)%Z) t)
        by (by apply list_elem_of_filter).
      destruct (filter (λ y, (y < x)%Z) t); [by apply elem_of_nil in Hy|].
      simpl. lia.
  - split; [unfold NA_INTEGER; lia|].
    intros (Hx & Hno & _). exfalso.
    assert (Htrue : forallb
      (λ y, negb (y =? NA_INTEGER)%Z && negb (x =? NA_INTEGER)%Z) t = true);
      [|congruence].
    apply forallb_forall. intros z Hz%list_elem_of_In.
    apply andb_true_iff. split; apply negb_true_iff, Z.eqb_neq; [|done].
    by apply Hno.
Qed.

Section AlphaSweep.
Context {Data Rng : Type}.
Context {CD : CaseData Data} {LL : Likelihoods Data}.
Context {RM : Rmath Rng} {IN : Internals Rng}.
Variable data : Data.
Variable param : Param.

Lemma alpha_guard_is_Some (i : nat) :
  i < length (alpha param) → i < length (t_inf param) →
  ∃ b, alpha_guard param i = Some b.
Proof.
  intros Ha Ht. unfold alpha_guard.
  destruct (lookup_lt_is_Some_2 (alpha param) i) as [a ->]; [lia|].
  destruct (lookup_lt_is_Some_2 (t_inf param) i) as [ti ->]; [lia|].
  simpl. destruct (negb _); eauto.
Qed.

Lemma alpha_body_step (i : nat) (s : alpha_state Rng) :
  i < length (alpha param) → i < length (t_inf param) →
  alpha_inv data param i s →
  ∃ s', alpha_body data param i s = Some s' ∧ alpha_inv data param (S i) s'.
Proof.
  intros Ha Ht (Hlen & Hlog & Hrest & Hskip & Hev).
  destruct (alpha_guard_is_Some i Ha Ht) as [b Hb].
  unfold alpha_body. rewrite Hb. simpl.
  assert (Hkeep : ∀ (v' : list Z) (g' : Rng) (e : option event),
    length v' = length (alpha param) →
    (∀ j, j ≠ i → v' !! j = as_new_alpha s !! j) →
    match e with
    | None => alpha_guard param i = Some false ∧ v' !! i = alpha param !! i
    | Some ev => alpha_event_ok data param v' i ev
    end →
    alpha_inv data param (S i) (mkAlphaState v' g' (as_log s ++ [e]))).
  { intros v' g' e Hlen' Hne He. split; [done|]. split.
    { simpl. rewrite length_app. simpl. lia. }
    split.
    { simpl. intros j Hj. rewrite Hne by lia. apply Hrest. lia. }
    split; simpl.
    - intros k [[Hk Hin]|[-> Heq]]%lookup_snoc_Some.
      + destruct (Hskip k Hin) as [H1 H2]. split; [done|].
        by rewrite Hne by lia.
      + subst e. by rewrite Hlog.
    - intros k ev [[Hk Hin]|[-> Heq]]%lookup_snoc_Some.
      + destruct (Hev k ev Hin) as (H1 & H2 & H3 & H4 & H5 & H6).
        repeat split; try done.
        * intros Hr. rewrite Hne by lia. by apply H5.
        * intros Hr. rewrite Hne by lia. by apply H6.
      + subst e. by rewrite Hlog. }
  destruct b.
  - destruct (cpp_pick_possible_ancestor (t_inf param) i (as_rng s))
      as [c g1] eqn:Hpick.
    destruct (lookup_lt_is_Some_2 (as_new_alpha s) i) as [a0 Ha0]; [lia|].
    destruct (lookup_lt_is_Some_2 (alpha param) i) as [a Halpha]; [lia|].
    rewrite Ha0. simpl.
    set (v := <[i:=c]> (as_new_alpha s)).
    set (old := cpp_ll_all data param None).
    set (new := cpp_ll_all data _ None).
    destruct (unif_rand g1) as [u g2] eqn:Hu.
    set (rej := d_lt _ _).
    assert (Hlenv : length v = length (alpha param))
      by (unfold v; by rewrite length_insert).
    destruct rej eqn:Hrejd.
    + rewrite Halpha. simpl. eexists. split; [done|].
      apply (Hkeep _ _ (Some _)).
      * by rewrite length_insert.
      * intros j Hj. rewrite list_lookup_insert_ne by done.
        unfold v. by rewrite list_lookup_insert_ne.
      * repeat split; simpl; try done.
        -- exists g1. by rewrite Hu.
        -- intros _. rewrite list_lookup_insert_eq by lia. done.
    + eexists. split; [done|].
      apply (Hkeep _ _ (Some _)).
      * done.
      * intros j Hj. unfold v. by rewrite list_lookup_insert_ne.
      * repeat split; simpl; try done.
        -- exists g1. by rewrite Hu.
        -- intros _. exists (as_rng s). rewrite Hpick. simpl.
           unfold v. rewrite list_lookup_insert_eq by lia. done.
  - eexists. split; [done|].
    apply (Hkeep _ _ None); [done|done|]. split; [done|].
    apply Hrest. lia.
Qed.

Lemma alpha_sweep (g : Rng) :
  data_N data ≤ length (alpha param) →
  data_N data ≤ length (t_inf param) →
  ∃ s, for_loop (alpha_body data param) 0 (data_N data)
         (mkAlphaState (alpha param) g []) = Some s ∧
       alpha_inv data param (data_N data) s.
Proof.
  intros Ha Ht.
  apply (for_loop_total _ (alpha_inv data param) (data_N data)).
  - intros i s Hi. apply alpha_body_step; lia.
  - lia.
  - repeat split; simpl; done.
Qed.

(** The result of the sweep: it returns as soon as [N] is within
    both vectors, touches ["alpha"] only, below [N] only, skips the
    cases the guard refuses, and for each other case the log holds
    the test that was made. *)
Lemma cpp_move_alpha_log_spec (g : Rng) :
  data_N data ≤ length (alpha param) →
  data_N data ≤ length (t_inf param) →
  ∃ r g' log,
    cpp_move_alpha_log data param g = Some (r, g', log) ∧
    mu r = mu param ∧ t_inf r = t_inf param ∧
    length log = data_N data ∧
    (∀ j, data_N data ≤ j → alpha r !! j = alpha param !! j) ∧
    (∀ i, log !! i = Some None →
       alpha_guard param i = Some false ∧
       alpha r !! i = alpha param !! i) ∧
    (∀ i ev, log !! i = Some (Some ev) →
       alpha_event_ok data param (alpha r) i ev).
Proof.
  intros Ha Ht. destruct (alpha_sweep g Ha Ht) as (s & Hrun & Hinv).
  destruct Hinv as (Hlen & Hlog & Hrest & Hskip & Hev).
  exists (set_alpha (as_new_alpha s) param), (as_rng s), (as_log s).
  unfold cpp_move_alpha_log. rewrite Hrun. simpl.
  repeat split; try done.
  - by apply Hskip.
  - by apply Hskip.
  - by apply (Hev i ev).
  - by apply (Hev i ev).
  - by apply (Hev i ev).
  - by apply (Hev i ev).
  - by apply (Hev i ev).
  - by apply (Hev i ev).
Qed.
End AlphaSweep.

(** ** The three moves *)

Section Claims.
Context {Data Rng : Type}.
Context {CD : CaseData Data} {LL : Likelihoods Data}.
Context {RM : Rmath Rng} {IN : Internals Rng}.

Lemma cpp_move_mu_log_eq (data : Data) (param : Param) (config : Config)
    (g : Rng) :
  let old := cpp_ll_genetic data param None in
  let new_mu := (mu_proposal param config g).1 in
  let new := cpp_ll_genetic data (set_mu new_mu param) None in
  let u := mu_draw param config g in
  let rej := d_lt (mu_p_accept data param config g) (Fin u) in
  cpp_move_mu_log data param config g =
    (set_mu (if rej then mu param else new_mu) param,
     (unif_rand (mu_proposal param config g).2).2,
     mkEvent old new u rej).
Proof.
  unfold cpp_move_mu_log, mu_p_accept, mu_draw. simpl.
  destruct (mu_proposal param config g) as [new_mu g1]. simpl.
  destruct (unif_rand g1) as [u g2]. simpl.
  by destruct (d_lt _ _).
Qed.

(** C10. Each move changes its own entry of the snapshot only: the
    move of mu returns the t_inf and alpha it was given, the sweep
    over infection times returns the mu and alpha it was given, the
    sweep over ancestries returns the mu and t_inf it was given
    (the sweeps return as soon as the N cases are within the
    vectors they index). *)
Theorem moves_change_own_entry_only (data : Data) (param : Param)
    (config : Config) (g : Rng) :
  data_N data ≤ length (t_inf param) →
  data_N data ≤ length (alpha param) →
  (t_inf (cpp_move_mu data param config g).1 = t_inf param ∧
   alpha (cpp_move_mu data param config g).1 = alpha param) ∧
  (∃ r g', cpp_move_t_inf data param g = Some (r, g') ∧
           mu r = mu param ∧ alpha r = alpha param) ∧
  (∃ r g', cpp_move_alpha data param g = Some (r, g') ∧
           mu r = mu param ∧ t_inf r = t_inf param).
Proof.
  intros Ht Ha. split; [|split].
  - unfold cpp_move_mu. rewrite cpp_move_mu_log_eq. done.
  - destruct (cpp_move_t_inf_log_spec data param g Ht)
      as (r & g' & log & Hrun & Hmu & Halpha & _).
    exists r, g'. unfold cpp_move_t_inf. rewrite Hrun. done.
  - destruct (cpp_move_alpha_log_spec data param g Ha Ht)
      as (r & g' & log & Hrun & Hmu & Ht_inf & _).
    exists r, g'. unfold cpp_move_alpha. rewrite Hrun. done.
Qed.

(** C9. With sd.mu = 0, and a Gaussian generator whose draw of
    mean 0 and deviation 0 is 0, the move of mu returns the mu it
    was given, whatever the snapshot and the state of the
    generator. *)
Theorem move_mu_sd_zero (data : Data) (param : Param) (config : Config)
    (g : Rng) :
  sd_mu config = Fin 0 →
  (∀ g0, (rnorm (Fin 0) (Fin 0) g0).1 = Fin 0) →
  mu (cpp_move_mu data param config g).1 = mu param.
Proof.
  intros Hsd Hzero. unfold cpp_move_mu. rewrite cpp_move_mu_log_eq.
  simpl. destruct (d_lt _ _); [done|].
  unfold mu_proposal. rewrite Hsd. specialize (Hzero g).
  destruct (rnorm (Fin 0) (Fin 0) g) as [eps g1]. simpl in *. subst eps.
  apply d_add_0_r.
Qed.

(** C4, amended. In the move of mu, as long as the acceptance ratio
    exp(new_ll - old_ll) is not NaN: if the draw u satisfies
    u <= exp(new_ll - old_ll) the returned mu is the proposed value
    mu + perturbation, otherwise it is the mu of the input. *)
Theorem move_mu_accept_rule (data : Data) (param : Param) (config : Config)
    (g : Rng) :
  mu_p_accept data param config g ≠ NaN →
  mu_rule_as_specified data param config g.
Proof.
  intros Hnan. unfold mu_rule_as_specified, cpp_move_mu.
  rewrite cpp_move_mu_log_eq. cbv zeta.
  rewrite (d_le_negb_lt _ _ Hnan). by destruct (d_lt _ _).
Qed.

Lemma param_eq (r p : Param) :
  mu r = mu p → t_inf r = t_inf p → alpha r = alpha p → r = p.
Proof. destruct r, p. simpl. by intros -> -> ->. Qed.

(** C8. When every acceptance test of a move rejects, the move
    returns the snapshot it was given: mu, t_inf and alpha are those
    of the input (the sweeps return as soon as the N cases are
    within the vectors they index). *)
Theorem rejecting_everything_changes_nothing (data : Data) (param : Param)
    (config : Config) (g : Rng) :
  data_N data ≤ length (t_inf param) →
  data_N data ≤ length (alpha param) →
  (ev_rejected (cpp_move_mu_log data param config g).2 = true →
     (cpp_move_mu data param config g).1 = param) ∧
  (∃ r g' log, cpp_move_t_inf_log data param g = Some (r, g', log) ∧
     ((∀ ev, ev ∈ log → ev_rejected ev = true) → r = param)) ∧
  (∃ r g' log, cpp_move_alpha_log data param g = Some (r, g', log) ∧
     ((∀ ev, Some ev ∈ log → ev_rejected ev = true) → r = param)).
Proof.
  intros Ht Ha. split; [|split].
  - unfold cpp_move_mu. rewrite cpp_move_mu_log_eq. simpl.
    intros ->. by apply param_eq.
  - destruct (cpp_move_t_inf_log_spec data param g Ht)
      as (r & g' & log & Hrun & Hmu & Halpha & Hlen & Hrest & Hev & _).
    exists r, g', log. split; [done|]. intros Hrej.
    apply param_eq; [done| |done]. apply list_eq. intros j.
    destruct (decide (j < data_N data)) as [Hj|Hj]; [|apply Hrest; lia].
    destruct (lookup_lt_is_Some_2 log j) as [ev Hin]; [lia|].
    apply (Hev j ev Hin). apply Hrej. by eapply list_elem_of_lookup_2.
  - destruct (cpp_move_alpha_log_spec data param g Ha Ht)
      as (r & g' & log & Hrun & Hmu & Ht_inf & Hlen & Hrest & Hskip & Hev).
    exists r, g', log. split; [done|]. intros Hrej.
    apply param_eq; [done|done|]. apply list_eq. intros j.
    destruct (decide (j < data_N data)) as [Hj|Hj]; [|apply Hrest; lia].
    destruct (lookup_lt_is_Some_2 log j) as [[ev|] Hin]; [lia| |].
    + apply (Hev j ev Hin). apply Hrej. by eapply list_elem_of_lookup_2.
    + by apply Hskip.
Qed.

(** C5, amended. In each move, when the likelihood of the candidate
    is minus infinity, that of the state it is compared with is
    finite, and the uniform draws are positive, the candidate is
    rejected: the move returns, and the value it returns for the
    case (or for mu) is the one before the proposal. *)
Theorem impossible_candidate_is_rejected (data : Data) (param : Param)
    (config : Config) (g : Rng) :
  (∀ g0, (0 < (unif_rand g0).1)%R) →
  data_N data ≤ length (t_inf param) →
  data_N data ≤ length (alpha param) →
  (∀ x, ev_old_loglike (cpp_move_mu_log data param config g).2 = Fin x →
        ev_new_loglike (cpp_move_mu_log data param config g).2 = NegInf →
        ev_rejected (cpp_move_mu_log data param config g).2 = true ∧
        mu (cpp_move_mu data param config g).1 = mu param) ∧
  (∃ r g' log, cpp_move_t_inf_log data param g = Some (r, g', log) ∧
     ∀ i ev x, log !! i = Some ev →
       ev_old_loglike ev = Fin x → ev_new_loglike ev = NegInf →
       ev_rejected ev = true ∧ t_inf r !! i = t_inf param !! i) ∧
  (∃ r g' log, cpp_move_alpha_log data param g = Some (r, g', log) ∧
     ∀ i ev x, log !! i = Some (Some ev) →
       ev_old_loglike ev = Fin x → ev_new_loglike ev = NegInf →
       ev_rejected ev = true ∧ alpha r !! i = alpha param !! i).
Proof.
  intros Hpos Ht Ha.
  assert (Hzero : ∀ g0, d_lt (Fin 0) (Fin (unif_rand g0).1) = true).
  { intros g0. rewrite d_lt_Fin. by apply bool_decide_eq_true_2. }
  split; [|split].
  - unfold cpp_move_mu. rewrite cpp_move_mu_log_eq. simpl.
    intros x Hold Hnew. unfold mu_p_accept, mu_draw.
    rewrite Hold, Hnew, p_accept_NegInf, Hzero. done.
  - destruct (cpp_move_t_inf_log_spec data param g Ht)
      as (r & g' & log & Hrun & Hmu & Halpha & Hlen & Hrest & Hev & _).
    exists r, g', log. split; [done|]. intros i ev x Hin Hold Hnew.
    destruct (Hev i ev Hin) as (_ & Hrej & [g0 Hdraw] & Hback).
    rewrite Hold, Hnew, p_accept_NegInf, Hdraw, Hzero in Hrej.
    split; [done|]. by apply Hback.
  - destruct (cpp_move_alpha_log_spec data param g Ha Ht)
      as (r & g' & log & Hrun & Hmu & Ht_inf & Hlen & Hrest & Hskip & Hev).
    exists r, g', log. split; [done|]. intros i ev x Hin Hold Hnew.
    destruct (Hev i ev Hin) as (_ & Hrej & [g0 Hdraw] & _ & Hback & _).
    rewrite Hold, Hnew, p_accept_NegInf, Hdraw, Hzero in Hrej.
    split; [done|]. by apply Hback.
Qed.

Lemma ineligible_guard (param : Param) (i : nat) :
  ineligible param i → alpha_guard param i ≠ Some true.
Proof.
  unfold alpha_guard. intros [Hna|(ti & Hti & Hnone)].
  - rewrite Hna. simpl. done.
  - destruct (alpha param !! i) as [a|]; [|done]. simpl.
    destruct (negb _); [|done]. rewrite Hti. simpl.
    intros [= Hsum]. apply Z.gtb_gt in Hsum.
    apply sum_lt_pos in Hsum as (_ & _ & y & Hin & Hlt). by apply (Hnone y).
Qed.

(** C7. A case that is not eligible for the ancestry move (its
    ancestor is NA, or no case is infected strictly before it)
    keeps its ancestor, whatever the state of the generator (the
    sweep returns as soon as the N cases are within the vectors). *)
Theorem move_alpha_skips_ineligible (data : Data) (param : Param)
    (g : Rng) (i : nat) :
  data_N data ≤ length (alpha param) →
  data_N data ≤ length (t_inf param) →
  ineligible param i →
  ∃ r g', cpp_move_alpha data param g = Some (r, g') ∧
          alpha r !! i = alpha param !! i.
Proof.
  intros Ha Ht Hin.
  destruct (cpp_move_alpha_log_spec data param g Ha Ht)
    as (r & g' & log & Hrun & Hmu & Ht_inf & Hlen & Hrest & Hskip & Hev).
  exists r, g'. unfold cpp_move_alpha. rewrite Hrun. split; [done|].
  destruct (decide (i < data_N data)) as [Hi|Hi]; [|apply Hrest; lia].
  destruct (lookup_lt_is_Some_2 log i) as [[ev|] Hlog]; [lia| |].
  - destruct (Hev i ev Hlog) as (_ & _ & _ & Hguard & _).
    by destruct (ineligible_guard param i Hin).
  - by apply Hskip.
Qed.

(** What a sampler that answers for the loop index would give: if
    the call the move makes, cpp_pick_possible_ancestor(t_inf, i)
    with i the loop index (scale 0..N-1), returned a case infected
    strictly before the case of index i whenever there is one, the
    sweep would keep every ancestor before its descendant. *)
Theorem move_alpha_keeps_ancestors_earlier (data : Data) (param : Param)
    (g : Rng) :
  data_N data ≤ length (alpha param) →
  data_N data ≤ length (t_inf param) →
  (∀ i g0 ti, t_inf param !! i = Some ti →
     (sum_lt (t_inf param) ti > 0)%Z →
     precedes (t_inf param)
       (cpp_pick_possible_ancestor (t_inf param) i g0).1 i) →
  ancestors_precede (t_inf param) (alpha param) →
  ∃ r g' log, cpp_move_alpha_log data param g = Some (r, g', log) ∧
    ancestors_precede (t_inf r) (alpha r) ∧
    ∀ i ev, log !! i = Some (Some ev) → ev_rejected ev = false →
      ∃ c, alpha r !! i = Some c ∧ precedes (t_inf r) c i.
Proof.
  intros Ha Ht Hpick Hinput.
  destruct (cpp_move_alpha_log_spec data param g Ha Ht)
    as (r & g' & log & Hrun & Hmu & Ht_inf & Hlen & Hrest & Hskip & Hev).
  exists r, g', log. split; [done|]. rewrite Ht_inf.
  assert (Hacc : ∀ i ev, log !! i = Some (Some ev) →
    ev_rejected ev = false →
    ∃ c, alpha r !! i = Some c ∧ precedes (t_inf param) c i).
  { intros i ev Hlog Hrej.
    destruct (Hev i ev Hlog) as (_ & _ & _ & Hguard & _ & Hnew).
    destruct (Hnew Hrej) as [g0 Hc]. eexists. split; [exact Hc|].
    unfold alpha_guard in Hguard.
    destruct (alpha param !! i) as [a|]; [|done]. simpl in Hguard.
    destruct (negb _); [|done].
    destruct (t_inf param !! i) as [ti|] eqn:Hti; [|done].
    simpl in Hguard. injection Hguard as Hsum.
    apply Z.gtb_gt in Hsum. by apply (Hpick i g0 ti). }
  split; [|done].
  intros i c Hc Hna.
  destruct (decide (i < data_N data)) as [Hi|Hi].
  - destruct (lookup_lt_is_Some_2 log i) as [[ev|] Hlog]; [lia| |].
    + destruct (ev_rejected ev) eqn:Hrej.
      * destruct (Hev i ev Hlog) as (_ & _ & _ & _ & Hback & _).
        apply Hinput; [|done]. by rewrite <- Hback.
      * destruct (Hacc i ev Hlog Hrej) as (c' & Hc' & Hprec).
        by replace c with c' by congruence.
    + destruct (Hskip i Hlog) as [_ Hsame].
      apply Hinput; [|done]. by rewrite <- Hsame.
  - apply Hinput; [|done]. rewrite <- Hrest by lia. done.
Qed.
End Claims.

(** C6. Two runs of the sweep over ancestries whose likelihoods agree
    on the calls for all cases, and are arbitrary on the calls
    restricted to one case, return the same snapshot, leave the
    generator in the same state and make the same tests. *)
Theorem move_alpha_ignores_case_terms {Data Rng : Type}
    {CD : CaseData Data} {RM : Rmath Rng} {IN : Internals Rng}
    (LL1 LL2 : Likelihoods Data) (data : Data) (param : Param) (g : Rng) :
  (∀ d p, @cpp_ll_all Data LL1 d p None = @cpp_ll_all Data LL2 d p None) →
  cpp_move_alpha (LL := LL1) data param g =
    cpp_move_alpha (LL := LL2) data param g ∧
  cpp_move_alpha_log (LL := LL1) data param g =
    cpp_move_alpha_log (LL := LL2) data param g.
Proof.
  intros Hall.
  assert (Hlog : cpp_move_alpha_log (LL := LL1) data param g =
                 cpp_move_alpha_log (LL := LL2) data param g).
  { unfold cpp_move_alpha_log.
    rewrite (for_loop_ext (alpha_body (LL := LL1) data param)
                          (alpha_body (LL := LL2) data param)); [done|].
    intros i s. unfold alpha_body.
    destruct (alpha_guard param i) as [[|]|]; simpl; try done.
    destruct (cpp_pick_possible_ancestor _ _ _) as [c g1].
    destruct (as_new_alpha s !! i); simpl; [|done].
    by rewrite !Hall. }
  split; [|done]. unfold cpp_move_alpha. by rewrite Hlog.
Qed.

(** ** The moves on concrete snapshots *)

Ltac by_exp :=
  first
    [ lra
    | rewrite Rminus_diag, exp_0; lra
    | match goal with
      | |- ¬ (exp ?x < _)%R =>
          assert (1 + x < exp x)%R by (apply exp_ineq1; lra); lra
      | |- (exp (0 - ?x) < _)%R =>
          replace (0 - x)%R with (- x)%R by lra;
          assert (exp (- x) < / (1 + x))%R by (apply exp_neg_bound; lra); lra
      end ].

(** C1. Two cases at dates 10 and 20, a timing likelihood of 5 for
    the dates (11, 20) and 0 elsewhere, draws 3/4, 1/2, 3/4, 1/2.
    The first case moves to 11 and is accepted, so that the snapshot
    then has likelihood 5; the test of the second case is
    nevertheless made against 0, the likelihood of the input, and
    accepts the dates (11, 21), which the test against 5 rejects. *)
Theorem move_t_inf_baseline_is_input_snapshot :
  cpp_move_t_inf (CD := count_data) (LL := score_ll prefer_11_20)
      (RM := replay draws_34_12) 1 two_cases 0
    = Some (set_t_inf [11; 20]%Z two_cases, 2) ∧
  cpp_ll_timing (Likelihoods := score_ll prefer_11_20) 2
      (set_t_inf [11; 20]%Z two_cases) None = Fin 5 ∧
  cpp_ll_timing (Likelihoods := score_ll prefer_11_20) 2 two_cases None
    = Fin 0 ∧
  cpp_move_t_inf_log (CD := count_data) (LL := score_ll prefer_11_20)
      (RM := replay draws_34_12) 2 two_cases 0
    = Some (set_t_inf [11; 21]%Z two_cases, 4,
            [mkEvent (Fin 0) (Fin 5) (1 / 2) false;
             mkEvent (Fin 0) (Fin 0) (1 / 2) false]) ∧
  d_lt (d_exp (d_sub (Fin 0) (Fin 5))) (Fin (1 / 2)) = true.
Proof.
  repeat split; run_with by_exp; reflexivity.
Qed.

(** C2. Two cases at dates 10 and 20, a timing likelihood that rules
    out the dates (11, 21) and is flat elsewhere, draws 3/4, 1/2,
    3/4, 1/2.  Scanning the first case alone returns the dates
    (11, 20): its move is accepted.  Scanning both cases, the move of
    the second one is rejected, and the sweep returns the dates
    (10, 20) of the input: the accepted date of the first case is
    gone. *)
Theorem move_t_inf_last_rejection_loses_accepted_dates :
  cpp_move_t_inf (CD := count_data) (LL := score_ll forbid_11_21)
      (RM := replay draws_34_12) 1 two_cases 0
    = Some (set_t_inf [11; 20]%Z two_cases, 2) ∧
  cpp_move_t_inf_log (CD := count_data) (LL := score_ll forbid_11_21)
      (RM := replay draws_34_12) 2 two_cases 0
    = Some (two_cases, 4,
            [mkEvent (Fin 0) (Fin 0) (1 / 2) false;
             mkEvent (Fin 0) NegInf (1 / 2) true]).
Proof.
  repeat split; run_with by_exp; reflexivity.
Qed.

(** C4 as stated fails: with mu = 2 and a proposal of 2.75, both
    outside [0;1], the two likelihoods are minus infinity and the
    ratio is NaN; [u <= NaN] is false, yet the move returns the
    proposal, not the mu of the input. *)
Lemma move_mu_accept_rule_fails_on_nan :
  ¬ mu_rule_as_specified (LL := score_ll unit_interval_ll)
      (RM := replay draws_34_12) 1 mu_is_2 (mkConfig (Fin 1)) 0.
Proof.
  run_with by_exp. intros Heq. injection Heq as Heq. lra.
Qed.

(** C5 as stated fails: with mu = 1/2 and a proposal of 1.25, for
    which the likelihood is NaN, the ratio is NaN and the test
    [NaN < u] is false: the candidate is accepted. *)
Lemma impossible_candidate_is_accepted :
  ev_new_loglike
    (cpp_move_mu_log (LL := score_ll log_domain_ll)
       (RM := replay draws_34_12) 2 two_cases (mkConfig (Fin 1)) 0).2 = NaN ∧
  ev_rejected
    (cpp_move_mu_log (LL := score_ll log_domain_ll)
       (RM := replay draws_34_12) 2 two_cases (mkConfig (Fin 1)) 0).2 = false ∧
  mu (cpp_move_mu (LL := score_ll log_domain_ll)
       (RM := replay draws_34_12) 2 two_cases (mkConfig (Fin 1)) 0).1
    ≠ mu two_cases.
Proof.
  repeat split; run_with by_exp; try reflexivity.
  intros Heq. injection Heq as Heq. lra.
Qed.

(** ** Instances of the theorems *)

Lemma draws_34_12_pos (n : nat) : (0 < draws_34_12 n)%R.
Proof. unfold draws_34_12. destruct (Nat.even n); lra. Defined.

Lemma moves_change_own_entry_only_witness :
  data_N (CaseData := count_data) 2 ≤ length (t_inf two_cases) ∧
  data_N (CaseData := count_data) 2 ≤ length (alpha two_cases) ∧
  ∃ r g', cpp_move_t_inf (CD := count_data) (LL := score_ll forbid_11_21)
            (RM := replay draws_34_12) 2 two_cases 0 = Some (r, g') ∧
          mu r = mu two_cases ∧ alpha r = alpha two_cases.
Proof.
  split; [simpl; lia|]. split; [simpl; lia|].
  apply (moves_change_own_entry_only (CD := count_data)
           (LL := score_ll forbid_11_21) (RM := replay draws_34_12)
           (IN := pick_first) 2 two_cases (mkConfig (Fin 1)) 0);
    simpl; lia.
Defined.

Lemma replay_rnorm_zero (draws : nat -> R) (n : nat) :
  (rnorm (Rmath := replay draws) (Fin 0) (Fin 0) n).1 = Fin 0.
Proof.
  simpl. rewrite (bool_decide_eq_false_2 (0 < 0)%R) by lra.
  rewrite (bool_decide_eq_true_2 (0 = 0)%R) by lra. done.
Defined.

Lemma move_mu_sd_zero_witness :
  sd_mu (mkConfig (Fin 0)) = Fin 0 ∧
  mu (cpp_move_mu (LL := score_ll unit_interval_ll)
        (RM := replay draws_34_12) 2 two_cases (mkConfig (Fin 0)) 0).1
    = mu two_cases.
Proof.
  split; [reflexivity|].
  apply (move_mu_sd_zero (LL := score_ll unit_interval_ll)
           (RM := replay draws_34_12) 2 two_cases (mkConfig (Fin 0)) 0).
  - reflexivity.
  - apply replay_rnorm_zero.
Defined.

Lemma move_mu_accept_rule_witness :
  mu_p_accept (LL := score_ll unit_interval_ll) (RM := replay draws_34_12)
    2 two_cases (mkConfig (Fin (1 / 4))) 0 ≠ NaN ∧
  mu_rule_as_specified (LL := score_ll unit_interval_ll)
    (RM := replay draws_34_12) 2 two_cases (mkConfig (Fin (1 / 4))) 0.
Proof.
  assert (Hp : mu_p_accept (LL := score_ll unit_interval_ll)
                 (RM := replay draws_34_12)
                 2 two_cases (mkConfig (Fin (1 / 4))) 0 ≠ NaN).
  { run_with by_exp. discriminate. }
  split; [exact Hp|].
  exact (move_mu_accept_rule (LL := score_ll unit_interval_ll)
           (RM := replay draws_34_12) 2 two_cases
           (mkConfig (Fin (1 / 4))) 0 Hp).
Defined.

(** On [three_cases] with the score [only_three_cases] every test of
    the sweep over infection times rejects. *)
Lemma three_cases_t_inf_run :
  cpp_move_t_inf_log (CD := count_data) (LL := score_ll only_three_cases)
    (RM := replay draws_34_12) 3 three_cases 0
  = Some (three_cases, 6,
          [mkEvent (Fin 0) NegInf (1 / 2) true;
           mkEvent (Fin 0) NegInf (1 / 2) true;
           mkEvent (Fin 0) NegInf (1 / 2) true]).
Proof. run_with by_exp. reflexivity. Qed.

Lemma rejecting_everything_changes_nothing_witness :
  data_N (CaseData := count_data) 3 ≤ length (t_inf three_cases) ∧
  data_N (CaseData := count_data) 3 ≤ length (alpha three_cases) ∧
  ∃ r g' log,
    cpp_move_t_inf_log (CD := count_data) (LL := score_ll only_three_cases)
      (RM := replay draws_34_12) 3 three_cases 0 = Some (r, g', log) ∧
    r = three_cases.
Proof.
  split; [simpl; lia|]. split; [simpl; lia|].
  destruct (rejecting_everything_changes_nothing (CD := count_data)
              (LL := score_ll only_three_cases) (RM := replay draws_34_12)
              (IN := pick_first) 3 three_cases (mkConfig (Fin 1)) 0)
    as (_ & (r & g' & log & Hrun & Hsame) & _); [simpl; lia..|].
  exists r, g', log. split; [exact Hrun|]. apply Hsame.
  rewrite three_cases_t_inf_run in Hrun. injection Hrun as _ _ <-.
  intros ev Hin. apply list_elem_of_In in Hin. simpl in Hin.
  destruct Hin as [<-|[<-|[<-|[]]]]; reflexivity.
Defined.

Lemma impossible_candidate_is_rejected_witness :
  (∀ g0, (0 < (unif_rand (Rmath := replay draws_34_12) g0).1)%R) ∧
  data_N (CaseData := count_data) 2 ≤ length (t_inf two_cases) ∧
  data_N (CaseData := count_data) 2 ≤ length (alpha two_cases) ∧
  ∃ r g' log,
    cpp_move_t_inf_log (CD := count_data) (LL := score_ll forbid_11_21)
      (RM := replay draws_34_12) 2 two_cases 0 = Some (r, g', log) ∧
    ∀ i ev x, log !! i = Some ev →
      ev_old_loglike ev = Fin x → ev_new_loglike ev = NegInf →
      ev_rejected ev = true ∧ t_inf r !! i = t_inf two_cases !! i.
Proof.
  split; [intros g0; apply draws_34_12_pos|].
  split; [simpl; lia|]. split; [simpl; lia|].
  apply (impossible_candidate_is_rejected (CD := count_data)
           (LL := score_ll forbid_11_21) (RM := replay draws_34_12)
           (IN := pick_first) 2 two_cases (mkConfig (Fin 1)) 0).
  - intros g0. apply draws_34_12_pos.
  - simpl; lia.
  - simpl; lia.
Defined.

Lemma move_alpha_skips_ineligible_witness :
  data_N (CaseData := count_data) 2 ≤ length (alpha two_cases) ∧
  data_N (CaseData := count_data) 2 ≤ length (t_inf two_cases) ∧
  ineligible two_cases 0 ∧
  ∃ r g',
    cpp_move_alpha (CD := count_data) (LL := score_ll forbid_11_21)
      (RM := replay draws_34_12) (IN := pick_first) 2 two_cases 0
      = Some (r, g') ∧
    alpha r !! 0 = alpha two_cases !! 0.
Proof.
  assert (Hin : ineligible two_cases 0) by (left; reflexivity).
  split; [simpl; lia|]. split; [simpl; lia|]. split; [exact Hin|].
  apply (move_alpha_skips_ineligible (CD := count_data)
           (LL := score_ll forbid_11_21) (RM := replay draws_34_12)
           (IN := pick_first) 2 two_cases 0 0); [simpl; lia..|exact Hin].
Defined.

Lemma pick_first_two_cases (i g0 : nat) (ti : Z) :
  t_inf two_cases !! i = Some ti →
  (sum_lt (t_inf two_cases) ti > 0)%Z →
  precedes (t_inf two_cases)
    (cpp_pick_possible_ancestor (Internals := pick_first)
       (t_inf two_cases) i g0).1 i.
Proof.
  destruct i as [|[|i]]; simpl; intros [= <-]; vm_compute.
  - intros [=].
  - intros _. split; [intros [=]|]. exists 10%Z, 20%Z. done.
Defined.

Lemma two_cases_ancestors_precede :
  ancestors_precede (t_inf two_cases) (alpha two_cases).
Proof.
  intros [|[|i]] c; simpl; intros [= <-] Hna; [done|].
  split; [lia|]. exists 10%Z, 20%Z. done.
Defined.

Lemma move_alpha_keeps_ancestors_earlier_witness :
  data_N (CaseData := count_data) 2 ≤ length (alpha two_cases) ∧
  data_N (CaseData := count_data) 2 ≤ length (t_inf two_cases) ∧
  ancestors_precede (t_inf two_cases) (alpha two_cases) ∧
  ∃ r g' log,
    cpp_move_alpha_log (CD := count_data) (LL := score_ll forbid_11_21)
      (RM := replay draws_34_12) (IN := pick_first) 2 two_cases 0
      = Some (r, g', log) ∧
    ancestors_precede (t_inf r) (alpha r) ∧
    ∀ i ev, log !! i = Some (Some ev) → ev_rejected ev = false →
      ∃ c, alpha r !! i = Some c ∧ precedes (t_inf r) c i.
Proof.
  split; [simpl; lia|]. split; [simpl; lia|].
  split; [exact two_cases_ancestors_precede|].
  apply (move_alpha_keeps_ancestors_earlier (CD := count_data)
           (LL := score_ll forbid_11_21) (RM := replay draws_34_12)
           (IN := pick_first) 2 two_cases 0).
  - simpl; lia.
  - simpl; lia.
  - intros i g0 ti. apply pick_first_two_cases.
  - exact two_cases_ancestors_precede.
Defined.

Lemma move_alpha_ignores_case_terms_witness :
  cpp_move_alpha (CD := count_data)
    (LL := score_ll_case forbid_11_21 (λ _ _, Fin 0))
    (RM := replay draws_34_12) (IN := pick_first) 2 two_cases 0 =
  cpp_move_alpha (CD := count_data)
    (LL := score_ll_case forbid_11_21 (λ _ k, Fin (INR k)))
    (RM := replay draws_34_12) (IN := pick_first) 2 two_cases 0.
Proof.
  apply (move_alpha_ignores_case_terms (CD := count_data)
           (RM := replay draws_34_12) (IN := pick_first)
           (score_ll_case forbid_11_21 (λ _ _, Fin 0))
           (score_ll_case forbid_11_21 (λ _ k, Fin (INR k)))
           2 two_cases 0).
  intros d p. reflexivity.
Defined.


(** * Further properties of the moves *)

(** ** Draws and dates in the sweep over infection times *)

Section TInfTrace.
Context {Data Rng : Type}.
Context {CD : CaseData Data} {LL : Likelihoods Data} {RM : Rmath Rng}.
Variable data : Data.
Variable param : Param.

Lemma after_draws_S (k : nat) (g : Rng) :
  after_draws (S k) g = (unif_rand (after_draws k g)).2.
Proof. done. Qed.

Lemma t_inf_body_trace (g : Rng) (i : nat) (s s' : t_inf_state Rng) :
  t_inf_trace_inv param g i s →
  t_inf_body data param i s = Some s' →
  t_inf_trace_inv param g (S i) s'.
Proof.
  intros (Hrng & Hlog & Hlen & Hrest & Hev). unfold t_inf_body.
  destruct (unif_rand (ts_rng s)) as [u1 g1] eqn:Hu1.
  destruct (ts_new_t_inf s !! i) as [x|] eqn:Hx; [|done]. simpl.
  assert (Hi : i < length (t_inf param)).
  { rewrite <- Hlen. by eapply lookup_lt_Some. }
  destruct (lookup_lt_is_Some_2 (t_inf param) i Hi) as [y Hy].
  assert (x = y) as -> by (rewrite Hrest in Hx by lia; congruence).
  assert (Hd1 : u1 = nth_draw (2 * i) g)
    by (unfold nth_draw; by rewrite <- Hrng, Hu1).
  assert (Hg1 : g1 = after_draws (S (2 * i)) g)
    by (rewrite after_draws_S, <- Hrng, Hu1; done).
  destruct (unif_rand g1) as [u2 g2] eqn:Hu2.
  assert (Hd2 : u2 = nth_draw (2 * i + 1) g).
  { unfold nth_draw. replace (2 * i + 1) with (S (2 * i)) by lia.
    by rewrite <- Hg1, Hu2. }
  assert (Hg2 : g2 = after_draws (2 * S i) g).
  { replace (2 * S i) with (S (S (2 * i))) by lia.
    rewrite after_draws_S, <- Hg1, Hu2. done. }
  set (v := <[i:=_]> (ts_new_t_inf s)).
  set (old := cpp_ll_timing data param None).
  set (new := cpp_ll_timing data _ None).
  set (rej := d_lt _ _).
  assert (Hall : ∀ (v' : list Z) (e : t_inf_entry),
    length v' = length (t_inf param) →
    (∀ j, j ≠ i → v' !! j = ts_new_t_inf s !! j) →
    v' !! i = Some (if rej then y
                    else (y + t_inf_shift (nth_draw (2 * i) g))%Z) →
    t_inf_trace_inv param g (S i)
      (mkTInfState v' e g2 (ts_log s ++ [mkEvent old new u2 rej]))).
  { intros v' e Hlen' Hne Hat. split; [done|]. split.
    { simpl. rewrite length_app. simpl. lia. }
    split; [done|]. split.
    { simpl. intros j Hj. rewrite Hne by lia. apply Hrest. lia. }
    simpl. intros k ev [[Hk Hin]|[-> <-]]%lookup_snoc_Some.
    - destruct (Hev k ev Hin) as (H1 & ti & H2 & H3).
      split; [done|]. exists ti. split; [done|]. by rewrite Hne by lia.
    - rewrite Hlog. simpl. split; [done|]. exists y. done. }
  destruct rej eqn:Hrej.
  - rewrite Hy. simpl. intros [= <-]. apply Hall.
    + unfold v. by rewrite !length_insert.
    + intros j Hj. unfold v. by rewrite !list_lookup_insert_ne.
    + rewrite list_lookup_insert_eq; [done|].
      unfold v. rewrite length_insert. lia.
  - intros [= <-]. apply Hall.
    + unfold v. by rewrite length_insert.
    + intros j Hj. unfold v. by rewrite list_lookup_insert_ne.
    + unfold v. rewrite list_lookup_insert_eq by lia.
      subst u1. done.
Qed.

Lemma t_inf_sweep_trace (g : Rng) (s : t_inf_state Rng) :
  for_loop (t_inf_body data param) 0 (data_N data)
    (mkTInfState (t_inf param) Entry_new_t_inf g []) = Some s →
  t_inf_trace_inv param g (data_N data) s.
Proof.
  intros Hrun.
  apply (for_loop_inv _ (t_inf_trace_inv param g)
           (t_inf_body_trace g) _ 0 _ s) in Hrun; [done|].
  repeat split; simpl; try done.
Qed.
Lemma t_inf_run_full (g : Rng) :
  data_N data ≤ length (t_inf param) →
  ∃ s, for_loop (t_inf_body data param) 0 (data_N data)
         (mkTInfState (t_inf param) Entry_new_t_inf g []) = Some s ∧
       t_inf_inv data param (data_N data) s ∧
       t_inf_trace_inv param g (data_N data) s.
Proof.
  intros Hle. destruct (t_inf_sweep data param g Hle) as (s & Hrun & Hinv).
  exists s. split; [done|]. split; [done|]. by apply t_inf_sweep_trace.
Qed.

(** X1. The sweep over infection times returns a vector of the same
    length in which every date is the input date, or the input date
    plus or minus one; the dates of index N and beyond are those of
    the input. *)
Theorem move_t_inf_shifts_by_at_most_one (g : Rng) :
  data_N data ≤ length (t_inf param) →
  ∃ r g', cpp_move_t_inf data param g = Some (r, g') ∧
    length (t_inf r) = length (t_inf param) ∧
    ∀ i ti, t_inf param !! i = Some ti →
      ∃ ri, t_inf r !! i = Some ri ∧
        (ri = ti - 1 ∨ ri = ti ∨ ri = ti + 1)%Z ∧
        (data_N data ≤ i → ri = ti).
Proof.
  intros Hle. destruct (t_inf_run_full g Hle) as (s & Hrun & Hinv & Htr).
  destruct Htr as (_ & Hlog & Hlen & Hrest & Hev).
  exists (ts_new_param param s), (ts_rng s).
  unfold cpp_move_t_inf, cpp_move_t_inf_log. rewrite Hrun. simpl.
  split; [done|]. unfold ts_new_param. simpl.
  destruct (ts_entry s); [|by eauto 10].
  split; [done|]. intros i ti Hti.
  destruct (decide (i < data_N data)) as [Hi|Hi].
  - destruct (lookup_lt_is_Some_2 (ts_log s) i) as [ev Hin]; [lia|].
    destruct (Hev i ev Hin) as (_ & ti' & Hti' & Hat).
    assert (ti' = ti) as -> by congruence.
    eexists. split; [exact Hat|]. split; [|lia].
    destruct (ev_rejected ev); [lia|].
    unfold t_inf_shift. case_bool_decide; lia.
  - exists ti. rewrite Hrest by lia. eauto.
Qed.

(** X2. The sweep over infection times makes exactly two calls of
    unif_rand() per case, whatever the data and the likelihood: it
    leaves the generator as 2N calls leave it, logs one test per
    case, and the test of case i (from 0) uses call number 2i+1. *)
Theorem move_t_inf_draws_twice_per_case (g : Rng) :
  data_N data ≤ length (t_inf param) →
  ∃ r log,
    cpp_move_t_inf_log data param g
      = Some (r, after_draws (2 * data_N data) g, log) ∧
    length log = data_N data ∧
    ∀ i ev, log !! i = Some ev → ev_draw ev = nth_draw (2 * i + 1) g.
Proof.
  intros Hle. destruct (t_inf_run_full g Hle) as (s & Hrun & Hinv & Htr).
  destruct Htr as (Hrng & Hlog & Hlen & Hrest & Hev).
  exists (ts_new_param param s), (ts_log s).
  unfold cpp_move_t_inf_log. rewrite Hrun. simpl. rewrite Hrng.
  split; [done|]. split; [done|].
  intros i ev Hin. by destruct (Hev i ev Hin).
Qed.

(** X3. What the sweep over infection times returns.  When the test
    of the last case rejects, the dates of the input, all of them.
    When it accepts, for each case the input date if its test
    rejected, and else the input date plus one if call number 2i of
    unif_rand() exceeded 1/2, minus one if not. *)
Theorem move_t_inf_returned_dates (g : Rng) :
  data_N data ≤ length (t_inf param) →
  ∃ r g' log,
    cpp_move_t_inf_log data param g = Some (r, g', log) ∧
    (∀ ev, last log = Some ev → ev_rejected ev = true →
       t_inf r = t_inf param) ∧
    (∀ ev, last log = Some ev → ev_rejected ev = false →
       ∀ i ev' ti, log !! i = Some ev' → t_inf param !! i = Some ti →
         t_inf r !! i =
           Some (if ev_rejected ev' then ti
                 else (ti + t_inf_shift (nth_draw (2 * i) g))%Z)).
Proof.
  intros Hle. destruct (t_inf_run_full g Hle) as (s & Hrun & Hinv & Htr).
  destruct Hinv as (_ & _ & _ & _ & Hentry).
  destruct Htr as (_ & Hlog & Hlen & Hrest & Hev).
  exists (ts_new_param param s), (ts_rng s), (ts_log s).
  unfold cpp_move_t_inf_log. rewrite Hrun. simpl.
  split; [done|]. unfold ts_new_param. simpl. split.
  - intros ev Hlast Hrej. by rewrite Hentry, Hlast, Hrej.
  - intros ev Hlast Hacc i ev' ti Hin Hti.
    rewrite Hentry, Hlast, Hacc.
    destruct (Hev i ev' Hin) as (_ & ti' & Hti' & Hat).
    by assert (ti' = ti) as -> by congruence.
Qed.

(** X4. The sweep over infection times is defined exactly when the N
    cases are within the vector of dates: with N beyond its length
    the loop reads past the end of the vector. *)
Theorem move_t_inf_defined_iff_in_bounds (g : Rng) :
  is_Some (cpp_move_t_inf data param g) ↔
  data_N data ≤ length (t_inf param).
Proof.
  split.
  - intros [[r g'] Hsome].
    destruct (decide (data_N data ≤ length (t_inf param))) as [|Hgt]; [done|].
    exfalso. unfold cpp_move_t_inf, cpp_move_t_inf_log in Hsome.
    destruct (for_loop _ _ _ _) as [s|] eqn:Hrun; [|done].
    clear Hsome.
    assert (Hgen : ∀ n lo (s0 : t_inf_state Rng),
      length (ts_new_t_inf s0) = length (t_inf param) →
      lo ≤ length (t_inf param) < lo + n →
      for_loop (t_inf_body data param) lo n s0 = None).
    { induction n as [|n IH]; intros lo s0 Hlen0 Hlo; [lia|]. simpl.
      destruct (t_inf_body data param lo s0) as [s1|] eqn:Hb; [|done].
      simpl. unfold t_inf_body in Hb.
      destruct (unif_rand (ts_rng s0)) as [u1 g1].
      destruct (ts_new_t_inf s0 !! lo) as [x|] eqn:Hx; [|done].
      apply lookup_lt_Some in Hx. simpl in Hb.
      destruct (unif_rand g1) as [u2 g2].
      apply IH; [|lia].
      destruct (d_lt _ _).
      - destruct (t_inf param !! lo); [|done]. simpl in Hb.
        injection Hb as <-. simpl. by rewrite !length_insert.
      - injection Hb as <-. simpl. by rewrite length_insert. }
    rewrite Hgen in Hrun; [done|done|lia].
  - intros Hle.
    destruct (cpp_move_t_inf_log_spec data param g Hle)
      as (r & g' & log & Hrun & _).
    exists (r, g'). unfold cpp_move_t_inf. by rewrite Hrun.
Qed.
End TInfTrace.

(** ** Eligibility and the sampler in the sweep over ancestries *)

Lemma alpha_guard_eligible (param : Param) (i : nat) :
  alpha_guard param i = Some true ↔ eligible param i.
Proof.
  unfold alpha_guard, eligible. split.
  - destruct (alpha param !! i) as [a|]; [|done]. simpl.
    destruct (Z.eqb_spec a NA_INTEGER) as [|Hna]; [done|]. simpl.
    destruct (t_inf param !! i) as [ti|]; [|done]. simpl.
    intros [= Hsum]. apply Z.gtb_gt, sum_lt_pos in Hsum as (_ & Hno & He).
    exists a, ti. done.
  - intros (a & ti & -> & Hna & Hti & Hno & Hearlier). rewrite Hti. simpl.
    destruct (Z.eqb_spec a NA_INTEGER) as [|_]; [done|]. simpl.
    f_equal. apply Z.gtb_gt, sum_lt_pos. split; [|done].
    apply Hno. by eapply list_elem_of_lookup_2.
Qed.

Section AlphaMore.
Context {Data Rng : Type}.
Context {CD : CaseData Data} {LL : Likelihoods Data}.
Context {RM : Rmath Rng} {IN : Internals Rng}.
Variable data : Data.
Variable param : Param.


(** X6. The sweep over ancestries logs one entry per case below N, in
    order, and tests exactly the eligible cases: those whose
    ancestor is not NA and that have a case infected strictly before
    them, provided no date is missing; with a missing date no case
    is tested. *)
Theorem move_alpha_tests_eligible_cases (g : Rng) :
  data_N data ≤ length (alpha param) →
  data_N data ≤ length (t_inf param) →
  ∃ r g' log, cpp_move_alpha_log data param g = Some (r, g', log) ∧
    length log = data_N data ∧
    ∀ i, i < data_N data →
      ((∃ ev, log !! i = Some (Some ev)) ↔ eligible param i) ∧
      (log !! i = Some None ↔ ¬ eligible param i).
Proof.
  intros Ha Ht.
  destruct (cpp_move_alpha_log_spec data param g Ha Ht)
    as (r & g' & log & Hrun & _ & _ & Hlen & _ & Hskip & Hev).
  exists r, g', log. split; [done|]. split; [done|]. intros i Hi.
  destruct (lookup_lt_is_Some_2 log i) as [[ev|] Hin]; [lia| |].
  - destruct (Hev i ev Hin) as (_ & _ & _ & Hguard & _).
    apply alpha_guard_eligible in Hguard. rewrite Hin. split.
    + split; [done|]. intros _. by exists ev.
    + split; [done|]. intros Hne. by destruct Hne.
  - destruct (Hskip i Hin) as [Hguard _]. rewrite Hin.
    assert (Hne : ¬ eligible param i).
    { intros He%alpha_guard_eligible. congruence. }
    split.
    + split; [by intros [ev [=]]|]. intros He. by destruct Hne.
    + done.
Qed.

(** X7. When no case below N is eligible, the sweep over ancestries
    returns the snapshot it was given and leaves the generator as it
    found it: neither the sampler nor unif_rand() is called. *)
Theorem move_alpha_without_eligible_case (g : Rng) :
  data_N data ≤ length (alpha param) →
  data_N data ≤ length (t_inf param) →
  (∀ i, i < data_N data → ¬ eligible param i) →
  cpp_move_alpha_log data param g
    = Some (param, g, replicate (data_N data) None).
Proof.
  intros Ha Ht Hnone.
  destruct (for_loop_total (alpha_body data param)
              (λ k s, s = mkAlphaState (alpha param) g (replicate k None))
              (data_N data)) with (n := data_N data) (lo := 0)
              (s := mkAlphaState (alpha param) g [])
    as (s & Hrun & ->); [|lia|done|].
  - intros i s Hi ->.
    destruct (alpha_guard_is_Some param i) as [b Hb]; [lia..|].
    destruct b; [by destruct (Hnone i Hi); apply alpha_guard_eligible|].
    unfold alpha_body. rewrite Hb. simpl. eexists. split; [done|].
    f_equal. symmetry. apply replicate_S_end.
  - unfold cpp_move_alpha_log. rewrite Hrun. simpl. do 3 f_equal.
    by destruct param.
Qed.

(** X9. If the sampler never returns NA for an eligible case, the
    sweep over ancestries keeps the cases without ancestor: an entry
    of the returned vector is NA exactly when it is NA in the
    input. *)
Theorem move_alpha_keeps_roots (g : Rng) :
  data_N data ≤ length (alpha param) →
  data_N data ≤ length (t_inf param) →
  (∀ i g0, eligible param i →
     (cpp_pick_possible_ancestor (t_inf param) i g0).1 ≠ NA_INTEGER) →
  ∃ r g', cpp_move_alpha data param g = Some (r, g') ∧
    ∀ i, alpha r !! i = Some NA_INTEGER ↔ alpha param !! i = Some NA_INTEGER.
Proof.
  intros Ha Ht Hpick.
  destruct (cpp_move_alpha_log_spec data param g Ha Ht)
    as (r & g' & log & Hrun & _ & _ & Hlen & Hrest & Hskip & Hev).
  exists r, g'. unfold cpp_move_alpha. rewrite Hrun. split; [done|].
  intros i.
  destruct (decide (i < data_N data)) as [Hi|Hi]; [|by rewrite Hrest by lia].
  destruct (lookup_lt_is_Some_2 log i) as [[ev|] Hin]; [lia| |].
  - destruct (Hev i ev Hin) as (_ & _ & _ & Hguard & Hback & Hnew).
    destruct (ev_rejected ev); [by rewrite Hback|].
    destruct (Hnew eq_refl) as [g0 ->].
    apply alpha_guard_eligible in Hguard. specialize (Hpick i g0 Hguard).
    destruct Hguard as (a & ti & -> & Hna & _).
    split; intros [= Heq]; done.
  - destruct (Hskip i Hin) as [_ ->]. done.
Qed.
End AlphaMore.

(** X8. The sweep over ancestries calls the sampler at the loop
    indices that pass the guard only: two samplers that return the
    same value for every call cpp_pick_possible_ancestor(t_inf, i)
    with i an eligible index of the input give the same snapshot,
    generator and tests. *)
Theorem move_alpha_samples_eligible_cases_only {Data Rng : Type}
    {CD : CaseData Data} {LL : Likelihoods Data} {RM : Rmath Rng}
    (IN1 IN2 : Internals Rng) (data : Data) (param : Param) (g : Rng) :
  (∀ i g0, eligible param i →
     @cpp_pick_possible_ancestor Rng IN1 (t_inf param) i g0 =
     @cpp_pick_possible_ancestor Rng IN2 (t_inf param) i g0) →
  cpp_move_alpha_log (IN := IN1) data param g =
    cpp_move_alpha_log (IN := IN2) data param g.
Proof.
  intros Hsame. unfold cpp_move_alpha_log.
  rewrite (for_loop_ext (alpha_body (IN := IN1) data param)
                        (alpha_body (IN := IN2) data param)); [done|].
  intros i s. unfold alpha_body.
  destruct (alpha_guard param i) as [[|]|] eqn:Hguard; simpl; try done.
  rewrite Hsame by (by apply alpha_guard_eligible). done.
Qed.

Section Acceptance.
Context {Data Rng : Type}.
Context {CD : CaseData Data} {LL : Likelihoods Data}.
Context {RM : Rmath Rng} {IN : Internals Rng}.
Variable data : Data.
Variable param : Param.

(** X10. In both sweeps every test, whatever was accepted before it,
    compares the candidate with the log-likelihood of the snapshot
    the move was given: timing for the infection times, composite
    for the ancestries. *)
Theorem sweeps_compare_with_input_snapshot (g : Rng) :
  data_N data ≤ length (t_inf param) →
  data_N data ≤ length (alpha param) →
  (∃ r g' log, cpp_move_t_inf_log data param g = Some (r, g', log) ∧
     ∀ ev, ev ∈ log → ev_old_loglike ev = cpp_ll_timing data param None) ∧
  (∃ r g' log, cpp_move_alpha_log data param g = Some (r, g', log) ∧
     ∀ ev, Some ev ∈ log → ev_old_loglike ev = cpp_ll_all data param None).
Proof.
  intros Ht Ha. split.
  - destruct (cpp_move_t_inf_log_spec data param g Ht)
      as (r & g' & log & Hrun & _ & _ & _ & _ & Hev & _).
    exists r, g', log. split; [done|].
    intros ev [i Hi]%list_elem_of_lookup_1. by apply (Hev i ev).
  - destruct (cpp_move_alpha_log_spec data param g Ha Ht)
      as (r & g' & log & Hrun & _ & _ & _ & _ & _ & Hev).
    exists r, g', log. split; [done|].
    intros ev [i Hi]%list_elem_of_lookup_1. by apply (Hev i ev).
Qed.

Lemma uphill_ratio (x y u : R) :
  (x <= y)%R → (u <= 1)%R →
  d_lt (d_exp (d_sub (Fin y) (Fin x))) (Fin u) = false.
Proof.
  intros Hxy Hu. simpl. apply bool_decide_eq_false_2.
  destruct (Req_dec_T (y - x) 0) as [->|Hne]; [rewrite exp_0; lra|].
  pose proof (exp_ineq1 (y - x) Hne). lra.
Qed.

(** X11. A candidate whose log-likelihood is finite and not below the
    finite one it is compared with is accepted in each move, as long
    as the uniform draws are at most 1: the move of mu returns the
    proposal, the sweep over ancestries the ancestor drawn by the
    sampler. *)
Theorem uphill_candidate_is_accepted (config : Config) (g : Rng) :
  (∀ g0, ((unif_rand g0).1 <= 1)%R) →
  data_N data ≤ length (t_inf param) →
  data_N data ≤ length (alpha param) →
  (∀ x y, ev_old_loglike (cpp_move_mu_log data param config g).2 = Fin x →
          ev_new_loglike (cpp_move_mu_log data param config g).2 = Fin y →
          (x <= y)%R →
          ev_rejected (cpp_move_mu_log data param config g).2 = false ∧
          mu (cpp_move_mu data param config g).1
            = (mu_proposal param config g).1) ∧
  (∃ r g' log, cpp_move_t_inf_log data param g = Some (r, g', log) ∧
     ∀ i ev x y, log !! i = Some ev →
       ev_old_loglike ev = Fin x → ev_new_loglike ev = Fin y → (x <= y)%R →
       ev_rejected ev = false) ∧
  (∃ r g' log, cpp_move_alpha_log data param g = Some (r, g', log) ∧
     ∀ i ev x y, log !! i = Some (Some ev) →
       ev_old_loglike ev = Fin x → ev_new_loglike ev = Fin y → (x <= y)%R →
       ev_rejected ev = false ∧
       ∃ g0, alpha r !! i =
               Some (cpp_pick_possible_ancestor (t_inf param) i g0).1).
Proof.
  intros Hle1 Ht Ha. split; [|split].
  - unfold cpp_move_mu. rewrite cpp_move_mu_log_eq. simpl.
    intros x y Hold Hnew Hxy. unfold mu_p_accept, mu_draw.
    rewrite Hold, Hnew, uphill_ratio by done. done.
  - destruct (cpp_move_t_inf_log_spec data param g Ht)
      as (r & g' & log & Hrun & _ & _ & _ & _ & Hev & _).
    exists r, g', log. split; [done|]. intros i ev x y Hin Hold Hnew Hxy.
    destruct (Hev i ev Hin) as (_ & Hrej & [g0 Hdraw] & _).
    rewrite Hrej, Hold, Hnew, Hdraw. by apply uphill_ratio.
  - destruct (cpp_move_alpha_log_spec data param g Ha Ht)
      as (r & g' & log & Hrun & _ & _ & _ & _ & _ & Hev).
    exists r, g', log. split; [done|]. intros i ev x y Hin Hold Hnew Hxy.
    destruct (Hev i ev Hin) as (_ & Hrej & [g0 Hdraw] & _ & _ & Hacc).
    assert (Hno : ev_rejected ev = false).
    { rewrite Hrej, Hold, Hnew, Hdraw. by apply uphill_ratio. }
    split; [done|]. by apply Hacc.
Qed.

(** X12. A test whose ratio exp(new_loglike - old_loglike) is NaN
    never rejects, in any move and for any draw: the move of mu
    returns the proposal, the sweep over ancestries the ancestor
    drawn by the sampler. *)
Theorem nan_ratio_is_accepted (config : Config) (g : Rng) :
  data_N data ≤ length (t_inf param) →
  data_N data ≤ length (alpha param) →
  (mu_p_accept data param config g = NaN →
     ev_rejected (cpp_move_mu_log data param config g).2 = false ∧
     mu (cpp_move_mu data param config g).1
       = (mu_proposal param config g).1) ∧
  (∃ r g' log, cpp_move_t_inf_log data param g = Some (r, g', log) ∧
     ∀ i ev, log !! i = Some ev →
       d_exp (d_sub (ev_new_loglike ev) (ev_old_loglike ev)) = NaN →
       ev_rejected ev = false) ∧
  (∃ r g' log, cpp_move_alpha_log data param g = Some (r, g', log) ∧
     ∀ i ev, log !! i = Some (Some ev) →
       d_exp (d_sub (ev_new_loglike ev) (ev_old_loglike ev)) = NaN →
       ev_rejected ev = false ∧
       ∃ g0, alpha r !! i =
               Some (cpp_pick_possible_ancestor (t_inf param) i g0).1).
Proof.
  intros Ht Ha. split; [|split].
  - unfold cpp_move_mu. rewrite cpp_move_mu_log_eq. simpl.
    intros ->. done.
  - destruct (cpp_move_t_inf_log_spec data param g Ht)
      as (r & g' & log & Hrun & _ & _ & _ & _ & Hev & _).
    exists r, g', log. split; [done|]. intros i ev Hin Hnan.
    destruct (Hev i ev Hin) as (_ & Hrej & _).
    by rewrite Hrej, Hnan.
  - destruct (cpp_move_alpha_log_spec data param g Ha Ht)
      as (r & g' & log & Hrun & _ & _ & _ & _ & _ & Hev).
    exists r, g', log. split; [done|]. intros i ev Hin Hnan.
    destruct (Hev i ev Hin) as (_ & Hrej & _ & _ & _ & Hacc).
    assert (Hno : ev_rejected ev = false) by (by rewrite Hrej, Hnan).
    split; [done|]. by apply Hacc.
Qed.
End Acceptance.

(** X13. The move of mu reads the genetic likelihood only, and the
    sweep over infection times the timing likelihood only, both for
    all cases: two sets of likelihoods that agree there give the
    same result. *)
Theorem moves_read_their_own_likelihood {Data Rng : Type}
    {CD : CaseData Data} {RM : Rmath Rng}
    (LL1 LL2 : Likelihoods Data) (data : Data) (param : Param)
    (config : Config) (g : Rng) :
  ((∀ d p, @cpp_ll_genetic Data LL1 d p None
           = @cpp_ll_genetic Data LL2 d p None) →
   cpp_move_mu_log (LL := LL1) data param config g =
     cpp_move_mu_log (LL := LL2) data param config g) ∧
  ((∀ d p, @cpp_ll_timing Data LL1 d p None
           = @cpp_ll_timing Data LL2 d p None) →
   cpp_move_t_inf_log (LL := LL1) data param g =
     cpp_move_t_inf_log (LL := LL2) data param g).
Proof.
  split; intros Hsame.
  - unfold cpp_move_mu_log.
    destruct (mu_proposal param config g) as [new_mu g1].
    by rewrite !Hsame.
  - unfold cpp_move_t_inf_log.
    rewrite (for_loop_ext (t_inf_body (LL := LL1) data param)
                          (t_inf_body (LL := LL2) data param)); [done|].
    intros i s. unfold t_inf_body.
    destruct (unif_rand (ts_rng s)) as [u1 g1].
    destruct (ts_new_t_inf s !! i); simpl; [|done].
    by rewrite !Hsame.
Qed.

(** X14. The sweep over infection times narrows the gap between an
    ancestor and its descendant by at most two time units: if every
    ancestor of the input is infected more than d + 2 units before
    its descendant, every ancestor of the returned snapshot is
    infected more than d units before it.  With d = 0: ancestors
    more than two units ahead still precede their descendants. *)
Theorem move_t_inf_narrows_gaps_by_at_most_two {Data Rng : Type}
    {CD : CaseData Data} {LL : Likelihoods Data} {RM : Rmath Rng}
    (data : Data) (param : Param) (g : Rng) (d : Z) :
  data_N data ≤ length (t_inf param) →
  ancestors_precede_by (d + 2) (t_inf param) (alpha param) →
  ∃ r g', cpp_move_t_inf data param g = Some (r, g') ∧
    ancestors_precede_by d (t_inf r) (alpha r).
Proof.
  intros Hle Hgap.
  destruct (t_inf_run_full data param g Hle) as (s & Hrun & Hinv & Htr).
  destruct Htr as (_ & Hlog & Hlen & Hrest & Hev).
  assert (Hnear : ∀ i ti, t_inf param !! i = Some ti →
    ∃ ri, t_inf (ts_new_param param s) !! i = Some ri ∧
          (ti - 1 ≤ ri ≤ ti + 1)%Z).
  { intros i ti Hti. unfold ts_new_param. simpl.
    destruct (ts_entry s); [|exists ti; split; [done|lia]].
    destruct (decide (i < data_N data)) as [Hi|Hi].
    - destruct (lookup_lt_is_Some_2 (ts_log s) i) as [ev Hin]; [lia|].
      destruct (Hev i ev Hin) as (_ & ti' & Hti' & Hat).
      assert (ti' = ti) as -> by congruence.
      eexists. split; [exact Hat|].
      destruct (ev_rejected ev); [lia|].
      unfold t_inf_shift. case_bool_decide; lia.
    - exists ti. rewrite Hrest by lia. split; [done|lia]. }
  exists (ts_new_param param s), (ts_rng s).
  unfold cpp_move_t_inf, cpp_move_t_inf_log. rewrite Hrun. simpl.
  split; [done|]. intros i c Hc Hna.
  destruct (Hgap i c Hc Hna) as (H1 & tc & ti & Htc & Hti & Hlt).
  destruct (Hnear _ _ Htc) as (rc & Hrc & Hbc).
  destruct (Hnear _ _ Hti) as (ri & Hri & Hbi).
  split; [done|]. exists rc, ri. split; [done|]. split; [done|]. lia.
Qed.

(** ** Instances of the further properties *)

Lemma draws_34_12_le_1 (n : nat) : (draws_34_12 n <= 1)%R.
Proof. unfold draws_34_12. destruct (Nat.even n); lra. Defined.

Lemma first_earlier_not_NA (t : list Z) (i : nat) :
  first_earlier t i ≠ NA_INTEGER.
Proof.
  unfold first_earlier, NA_INTEGER.
  destruct (t !! i); [|done].
  destruct (list_find _ t) as [[j y]|]; [lia|done].
Defined.

Lemma two_cases_eligible (i : nat) : eligible two_cases i → i = 1.
Proof.
  intros (a & ti & Ha & Hna & Hti & _).
  destruct i as [|[|i]]; simpl in *; [|done|done].
  injection Ha as <-. done.
Defined.

Lemma move_t_inf_shifts_by_at_most_one_witness :
  data_N (CaseData := count_data) 2 ≤ length (t_inf two_cases) ∧
  ∃ r g',
    cpp_move_t_inf (CD := count_data) (LL := score_ll forbid_11_21)
      (RM := replay draws_34_12) 2 two_cases 0 = Some (r, g') ∧
    length (t_inf r) = length (t_inf two_cases) ∧
    ∀ i ti, t_inf two_cases !! i = Some ti →
      ∃ ri, t_inf r !! i = Some ri ∧
        (ri = ti - 1 ∨ ri = ti ∨ ri = ti + 1)%Z ∧
        (data_N (CaseData := count_data) 2 ≤ i → ri = ti).
Proof.
  split; [simpl; lia|].
  apply (move_t_inf_shifts_by_at_most_one (CD := count_data)
           (LL := score_ll forbid_11_21) (RM := replay draws_34_12)
           2 two_cases 0).
  simpl; lia.
Defined.

Lemma move_t_inf_draws_twice_per_case_witness :
  data_N (CaseData := count_data) 2 ≤ length (t_inf two_cases) ∧
  ∃ r log,
    cpp_move_t_inf_log (CD := count_data) (LL := score_ll prefer_11_20)
      (RM := replay draws_34_12) 2 two_cases 0
      = Some (r, after_draws (RM := replay draws_34_12) (2 * 2) 0, log) ∧
    length log = 2.
Proof.
  split; [simpl; lia|].
  destruct (move_t_inf_draws_twice_per_case (CD := count_data)
              (LL := score_ll prefer_11_20) (RM := replay draws_34_12)
              2 two_cases 0) as (r & log & Hrun & Hlen & _); [simpl; lia|].
  exists r, log. split; [exact Hrun|exact Hlen].
Defined.

Lemma move_t_inf_returned_dates_witness :
  data_N (CaseData := count_data) 2 ≤ length (t_inf two_cases) ∧
  ∃ r g' log,
    cpp_move_t_inf_log (CD := count_data) (LL := score_ll forbid_11_21)
      (RM := replay draws_34_12) 2 two_cases 0 = Some (r, g', log) ∧
    (∀ ev, last log = Some ev → ev_rejected ev = true →
       t_inf r = t_inf two_cases).
Proof.
  split; [simpl; lia|].
  destruct (move_t_inf_returned_dates (CD := count_data)
              (LL := score_ll forbid_11_21) (RM := replay draws_34_12)
              2 two_cases 0) as (r & g' & log & Hrun & Hrev & _);
    [simpl; lia|].
  exists r, g', log. split; [exact Hrun|exact Hrev].
Defined.


Lemma move_alpha_tests_eligible_cases_witness :
  data_N (CaseData := count_data) 2 ≤ length (alpha two_cases) ∧
  data_N (CaseData := count_data) 2 ≤ length (t_inf two_cases) ∧
  ∃ r g' log,
    cpp_move_alpha_log (CD := count_data) (LL := score_ll forbid_11_21)
      (RM := replay draws_34_12) (IN := pick_first) 2 two_cases 0
      = Some (r, g', log) ∧
    length log = 2.
Proof.
  split; [simpl; lia|]. split; [simpl; lia|].
  destruct (move_alpha_tests_eligible_cases (CD := count_data)
              (LL := score_ll forbid_11_21) (RM := replay draws_34_12)
              (IN := pick_first) 2 two_cases 0)
    as (r & g' & log & Hrun & Hlen & _); [simpl; lia..|].
  exists r, g', log. split; [exact Hrun|exact Hlen].
Defined.

Lemma three_cases_first_two_not_eligible (i : nat) :
  i < 2 → ¬ eligible three_cases i.
Proof.
  intros Hi (a & ti & Ha & Hna & _).
  destruct i as [|[|i]]; simpl in *; [| |lia]; injection Ha as <-; done.
Defined.

Lemma move_alpha_without_eligible_case_witness :
  data_N (CaseData := count_data) 2 ≤ length (alpha three_cases) ∧
  data_N (CaseData := count_data) 2 ≤ length (t_inf three_cases) ∧
  (∀ i, i < data_N (CaseData := count_data) 2 → ¬ eligible three_cases i) ∧
  cpp_move_alpha_log (CD := count_data) (LL := score_ll only_three_cases)
    (RM := replay draws_34_12) (IN := pick_first) 2 three_cases 0
    = Some (three_cases, 0, [None; None]).
Proof.
  split; [simpl; lia|]. split; [simpl; lia|].
  split; [exact three_cases_first_two_not_eligible|].
  apply (move_alpha_without_eligible_case (CD := count_data)
           (LL := score_ll only_three_cases) (RM := replay draws_34_12)
           (IN := pick_first) 2 three_cases 0).
  - simpl; lia.
  - simpl; lia.
  - exact three_cases_first_two_not_eligible.
Defined.

Lemma move_alpha_samples_eligible_cases_only_witness :
  cpp_move_alpha_log (CD := count_data) (LL := score_ll forbid_11_21)
    (RM := replay draws_34_12) (IN := pick_first) 2 two_cases 0 =
  cpp_move_alpha_log (CD := count_data) (LL := score_ll forbid_11_21)
    (RM := replay draws_34_12) (IN := pick_first_or 7) 2 two_cases 0.
Proof.
  apply (move_alpha_samples_eligible_cases_only (CD := count_data)
           (LL := score_ll forbid_11_21) (RM := replay draws_34_12)
           pick_first (pick_first_or 7) 2 two_cases 0).
  intros i g0 Hel. apply two_cases_eligible in Hel. subst i. reflexivity.
Defined.

Lemma move_alpha_keeps_roots_witness :
  data_N (CaseData := count_data) 2 ≤ length (alpha two_cases) ∧
  data_N (CaseData := count_data) 2 ≤ length (t_inf two_cases) ∧
  ∃ r g',
    cpp_move_alpha (CD := count_data) (LL := score_ll forbid_11_21)
      (RM := replay draws_34_12) (IN := pick_first) 2 two_cases 0
      = Some (r, g') ∧
    ∀ i, alpha r !! i = Some NA_INTEGER ↔
         alpha two_cases !! i = Some NA_INTEGER.
Proof.
  split; [simpl; lia|]. split; [simpl; lia|].
  apply (move_alpha_keeps_roots (CD := count_data)
           (LL := score_ll forbid_11_21) (RM := replay draws_34_12)
           (IN := pick_first) 2 two_cases 0).
  - simpl; lia.
  - simpl; lia.
  - intros i g0 _. apply first_earlier_not_NA.
Defined.

Lemma sweeps_compare_with_input_snapshot_witness :
  data_N (CaseData := count_data) 2 ≤ length (t_inf two_cases) ∧
  data_N (CaseData := count_data) 2 ≤ length (alpha two_cases) ∧
  ∃ r g' log,
    cpp_move_t_inf_log (CD := count_data) (LL := score_ll prefer_11_20)
      (RM := replay draws_34_12) 2 two_cases 0 = Some (r, g', log) ∧
    ∀ ev, ev ∈ log →
      ev_old_loglike ev
        = cpp_ll_timing (Likelihoods := score_ll prefer_11_20)
            2 two_cases None.
Proof.
  split; [simpl; lia|]. split; [simpl; lia|].
  apply (sweeps_compare_with_input_snapshot (CD := count_data)
           (LL := score_ll prefer_11_20) (RM := replay draws_34_12)
           (IN := pick_first) 2 two_cases 0); simpl; lia.
Defined.

Lemma uphill_candidate_is_accepted_witness :
  (∀ g0, ((unif_rand (Rmath := replay draws_34_12) g0).1 <= 1)%R) ∧
  data_N (CaseData := count_data) 2 ≤ length (t_inf two_cases) ∧
  data_N (CaseData := count_data) 2 ≤ length (alpha two_cases) ∧
  ∃ r g' log,
    cpp_move_t_inf_log (CD := count_data) (LL := score_ll prefer_11_20)
      (RM := replay draws_34_12) 2 two_cases 0 = Some (r, g', log) ∧
    ∀ i ev x y, log !! i = Some ev →
      ev_old_loglike ev = Fin x → ev_new_loglike ev = Fin y → (x <= y)%R →
      ev_rejected ev = false.
Proof.
  split; [intros g0; apply draws_34_12_le_1|].
  split; [simpl; lia|]. split; [simpl; lia|].
  apply (uphill_candidate_is_accepted (CD := count_data)
           (LL := score_ll prefer_11_20) (RM := replay draws_34_12)
           (IN := pick_first) 2 two_cases (mkConfig (Fin 1)) 0).
  - intros g0. apply draws_34_12_le_1.
  - simpl; lia.
  - simpl; lia.
Defined.

Lemma nan_ratio_is_accepted_witness :
  data_N (CaseData := count_data) 1 ≤ length (t_inf mu_is_2) ∧
  data_N (CaseData := count_data) 1 ≤ length (alpha mu_is_2) ∧
  mu_p_accept (LL := score_ll unit_interval_ll) (RM := replay draws_34_12)
    1 mu_is_2 (mkConfig (Fin 1)) 0 = NaN ∧
  mu (cpp_move_mu (LL := score_ll unit_interval_ll)
        (RM := replay draws_34_12) 1 mu_is_2 (mkConfig (Fin 1)) 0).1
    = (mu_proposal (RM := replay draws_34_12) mu_is_2 (mkConfig (Fin 1)) 0).1.
Proof.
  assert (Hnan : mu_p_accept (LL := score_ll unit_interval_ll)
                   (RM := replay draws_34_12)
                   1 mu_is_2 (mkConfig (Fin 1)) 0 = NaN).
  { run_with by_exp. reflexivity. }
  split; [simpl; lia|]. split; [simpl; lia|]. split; [exact Hnan|].
  destruct (nan_ratio_is_accepted (CD := count_data)
              (LL := score_ll unit_interval_ll) (RM := replay draws_34_12)
              (IN := pick_first) 1 mu_is_2 (mkConfig (Fin 1)) 0)
    as (Hmu & _); [simpl; lia..|].
  exact (proj2 (Hmu Hnan)).
Defined.

Lemma moves_read_their_own_likelihood_witness :
  cpp_move_t_inf_log (CD := count_data)
    (LL := score_ll3 unit_interval_ll forbid_11_21 prefer_11_20)
    (RM := replay draws_34_12) 2 two_cases 0 =
  cpp_move_t_inf_log (CD := count_data)
    (LL := score_ll3 log_domain_ll forbid_11_21 only_three_cases)
    (RM := replay draws_34_12) 2 two_cases 0.
Proof.
  apply (moves_read_their_own_likelihood (CD := count_data)
           (RM := replay draws_34_12)
           (score_ll3 unit_interval_ll forbid_11_21 prefer_11_20)
           (score_ll3 log_domain_ll forbid_11_21 only_three_cases)
           2 two_cases (mkConfig (Fin 1)) 0).
  intros d p. reflexivity.
Defined.

Lemma two_cases_gap :
  ancestors_precede_by (0 + 2) (t_inf two_cases) (alpha two_cases).
Proof.
  intros [|[|i]] c; simpl; intros [= <-] Hna; [done|].
  split; [lia|]. exists 10%Z, 20%Z. repeat split; lia.
Defined.

Lemma move_t_inf_narrows_gaps_by_at_most_two_witness :
  data_N (CaseData := count_data) 2 ≤ length (t_inf two_cases) ∧
  ancestors_precede_by (0 + 2) (t_inf two_cases) (alpha two_cases) ∧
  ∃ r g',
    cpp_move_t_inf (CD := count_data) (LL := score_ll prefer_11_20)
      (RM := replay draws_34_12) 2 two_cases 0 = Some (r, g') ∧
    ancestors_precede_by 0 (t_inf r) (alpha r).
Proof.
  split; [simpl; lia|]. split; [exact two_cases_gap|].
  apply (move_t_inf_narrows_gaps_by_at_most_two (CD := count_data)
           (LL := score_ll prefer_11_20) (RM := replay draws_34_12)
           2 two_cases 0 0).
  - simpl; lia.
  - exact two_cases_gap.
Defined.

(** ** The sampler of the specification *)

Lemma earlier_ids_earlier (t : list Z) (x id c : Z) :
  c ∈ earlier_ids t x id →
  ∃ j tc, c = (id + Z.of_nat j)%Z ∧ t !! j = Some tc ∧ (tc < x)%Z.
Proof.
  revert id. induction t as [|y t IH]; intros id Hin; simpl in Hin.
  - by apply elem_of_nil in Hin.
  - destruct (Z.ltb_spec y x) as [Hlt|Hge].
    + apply elem_of_cons in Hin as [->|Hin].
      * exists 0, y. split; [lia|done].
      * destruct (IH _ Hin) as (j & tc & -> & Hj & Htc).
        exists (S j), tc. split; [lia|done].
    + destruct (IH _ Hin) as (j & tc & -> & Hj & Htc).
      exists (S j), tc. split; [lia|done].
Qed.

Lemma choose_uniform_in (l : list Z) (u : R) (n k : Z) :
  l ≠ [] → choose_uniform l u n k ∈ l.
Proof.
  revert k. induction l as [|c l IH]; intros k Hne; [done|].
  destruct l as [|c' l]; [left|].
  change (choose_uniform (c :: c' :: l) u n k)
    with (if bool_decide (u * IZR n < IZR (k + 1))%R then c
          else choose_uniform (c' :: l) u n (k + 1)).
  case_bool_decide; [left|right]. by apply IH.
Qed.

(** The sampler of the specification meets the assumption made of
    it: asked about the case of identifier [k + 1], with a pool that
    is not empty, it returns the identifier of a case infected
    strictly before that case. *)
Lemma spec_sampler_earlier {Rng : Type} {RM : Rmath Rng}
    (t : list Z) (k : nat) (tk : Z) (g : Rng) :
  t !! k = Some tk →
  possible_ancestors t (S k) ≠ [] →
  let c := (cpp_pick_possible_ancestor (Internals := spec_sampler)
              t (S k) g).1 in
  (1 ≤ c)%Z ∧ ∃ tc, t !! Z.to_nat (c - 1) = Some tc ∧ (tc < tk)%Z.
Proof.
  intros Hk Hne. unfold cpp_pick_possible_ancestor, spec_sampler.
  destruct (unif_rand g) as [u g']. cbn [fst].
  pose proof (choose_uniform_in (possible_ancestors t (S k)) u
                (Z.of_nat (length (possible_ancestors t (S k)))) 0 Hne)
    as Hin.
  set (c := choose_uniform _ _ _ _) in *. clearbody c.
  unfold possible_ancestors in Hin. rewrite Hk in Hin.
  apply earlier_ids_earlier in Hin as (j & tc & -> & Hj & Htc).
  split; [lia|]. exists tc. split; [|done].
  by replace (Z.to_nat (1 + Z.of_nat j - 1)) with j by lia.
Qed.

(** With a missing date the guard of the sweep over ancestries lets
    no case through. *)
Example alpha_guard_missing_date :
  alpha_guard undated_case 1 = Some false ∧
  alpha_guard undated_case 2 = Some false.
Proof. done. Qed.

(** The guard looks at the case of index i, the call asks about the
    case of identifier i: for two cases at dates 10 and 20 the guard
    lets the second case (index 1) through, and the pool of the
    identifier 1 is empty. *)
Example guard_and_pool_disagree :
  alpha_guard two_cases 1 = Some true ∧
  possible_ancestors (t_inf two_cases) 1 = [].
Proof. done. Qed.

(** C3. Three cases at dates 0, 5 and 3, the third infected by the
    first: every ancestor precedes its descendant.  The sampler is
    the one of the specification, the likelihood is flat, the draws
    are 3/4, 1/2.  For the third case (index 2, identifier 3) the
    pool is the first case alone; the move calls the sampler with 2,
    the pool of which is the first and the third case; the draw 3/4
    picks the third case, the test accepts it, and the sweep returns
    the third case as its own ancestor: an accepted ancestor whose
    date is not before the date of its descendant. *)
Theorem move_alpha_asks_sampler_about_previous_case :
  ancestors_precede (t_inf crossed_cases) (alpha crossed_cases) ∧
  possible_ancestors (t_inf crossed_cases) 3 = [1%Z] ∧
  possible_ancestors (t_inf crossed_cases) 2 = [1%Z; 3%Z] ∧
  cpp_move_alpha_log (CD := count_data) (LL := score_ll (λ _, Fin 0))
      (RM := replay draws_34_12)
      (IN := spec_sampler (RM := replay draws_34_12)) 3 crossed_cases 0
    = Some (set_alpha [NA_INTEGER; NA_INTEGER; 3%Z] crossed_cases, 2,
            [None; None; Some (mkEvent (Fin 0) (Fin 0) (1 / 2) false)]) ∧
  ¬ ancestors_precede (t_inf crossed_cases) [NA_INTEGER; NA_INTEGER; 3%Z].
Proof.
  split; [|split; [done|split; [done|split]]].
  - intros [|[|[|i]]] c; simpl; intros [= <-] Hna; try done.
    split; [lia|]. exists 0%Z, 3%Z. done.
  - run_with by_exp. reflexivity.
  - intros Hall.
    destruct (Hall 2 3%Z) as (_ & tc & ti & Htc & Hti & Hlt); [done..|].
    simpl in Htc, Hti. injection Htc as <-. injection Hti as <-. lia.
Qed.
